(** * local-db: shared store registry, hydration and cross-tab sync

    A shallow embedding of
      - [src/app/use-local-db.ts]               (the hook's [isValid] and [isEqual]),
      - [src/app/components/store-registry.ts]  ([regKey], [getStore] and the
        closures [setValue], [hydrate], [notify], [persist], the message handler),
      - [src/app/components/idb.ts]             ([idbGet], [idbSet]),
      - [src/app/components/broadcast.ts]       ([getBroadcastChannel]).

    JavaScript values are an inductive type; [undefined] is the hydrating
    sentinel and [null] the absent value, as in the source.  Asynchronous
    functions run synchronously up to their first [await]; what remains is
    kept as a pending task that the environment resumes later. *)

From Stdlib Require Import ZArith Bool List Lia Ascii.
From stdpp Require Import base option list strings gmap.
Import ListNotations.

Set Warnings "-register-all".

Local Open Scope string_scope.
Local Open Scope list_scope.

(** ** JavaScript values *)

(** Numbers: [NaN] apart, a number is taken from [Z]; [+0] and [-0] are one
    number, as they are for [===] and for [!x]. *)
Inductive JsNum : Type :=
| NaN
| Fin (z : Z).

(** Objects and arrays carry the address they live at: [===] on them is
    identity of addresses, never a comparison of contents. *)
Inductive JsVal : Type :=
| JUndefined
| JNull
| JBool (b : bool)
| JNum (n : JsNum)
| JStr (s : string)
| JObj (addr : nat) (fields : list (string * JsVal))
| JArr (addr : nat) (items : list JsVal).

(** [a === b] *)
Definition strictEq (a b : JsVal) : bool :=
  match a, b with
  | JUndefined, JUndefined => true
  | JNull, JNull => true
  | JBool x, JBool y => Bool.eqb x y
  | JNum (Fin x), JNum (Fin y) => Z.eqb x y
  | JStr x, JStr y => String.eqb x y
  | JObj r _, JObj r' _ => Nat.eqb r r'
  | JArr r _, JArr r' _ => Nat.eqb r r'
  | _, _ => false
  end.

(** ToBoolean, so that [!a] is [negb (truthy a)]. *)
Definition truthy (a : JsVal) : bool :=
  match a with
  | JUndefined | JNull => false
  | JBool b => b
  | JNum NaN => false
  | JNum (Fin z) => negb (Z.eqb z 0)
  | JStr s => negb (String.eqb s "")
  | JObj _ _ | JArr _ _ => true
  end.

(** [typeof a === "object"] *)
Definition typeofObject (a : JsVal) : bool :=
  match a with
  | JNull | JObj _ _ | JArr _ _ => true
  | _ => false
  end.

(** [a ?? d] *)
Definition nullish (a d : JsVal) : JsVal :=
  match a with
  | JUndefined | JNull => d
  | _ => a
  end.

(** Own property lookup of a field list: the first entry wins. *)
Fixpoint field (p : string) (fs : list (string * JsVal)) : option JsVal :=
  match fs with
  | [] => None
  | (k, v) :: rest => if String.eqb k p then Some v else field p rest
  end.

(** [d.p] on a value that is neither [null] nor [undefined]: a missing
    property reads as [undefined]. *)
Definition getProp (d : JsVal) (p : string) : JsVal :=
  match d with
  | JObj _ fs => default JUndefined (field p fs)
  | _ => JUndefined
  end.

(** ** use-local-db.ts: the hook's predicates *)

Module Hook.
Section Hook.

(** [import deepEqual from "fast-deep-equal"] *)
Variable deepEqual : JsVal -> JsVal -> bool.
(** [schema.safeParse(val).success] *)
Variable schema : JsVal -> bool.

Definition isValid (val : JsVal) : bool :=
  if strictEq val JNull then true else schema val.

Definition isEqual (a b : JsVal) : bool :=
  if strictEq a b then true
  else if negb (truthy a) || negb (truthy b) then false
  else if negb (typeofObject a) || negb (typeofObject b) then false
  else deepEqual a b.

(** The equality contract in the words of the specification, clause by
    clause, to be compared with [isEqual]:
    - equal if reference-identical, which is JavaScript identity [===]
      (one object, one primitive value, [null] or [undefined] with itself);
    - otherwise unequal if either is absent or missing ([null], [undefined]);
    - otherwise, if both are structurally composite (objects, arrays), the
      deep structural equality;
    - otherwise strict value equality. *)
Definition isAbsent (a : JsVal) : bool :=
  match a with
  | JUndefined | JNull => true
  | _ => false
  end.

Definition isComposite (a : JsVal) : bool :=
  match a with
  | JObj _ _ | JArr _ _ => true
  | _ => false
  end.

Definition equalityContract (a b : JsVal) : bool :=
  if strictEq a b then true
  else if isAbsent a || isAbsent b then false
  else if isComposite a && isComposite b then deepEqual a b
  else strictEq a b.

End Hook.
End Hook.

(** A structural comparison of plain data in the manner of fast-deep-equal:
    identical values are equal, arrays are compared item by item, objects by
    their keys, and [NaN] equals [NaN].  It instantiates the imported
    [deepEqual] in the examples. *)
Fixpoint structEq (a b : JsVal) {struct a} : bool :=
  if strictEq a b then true
  else
    match a, b with
    | JArr _ xs, JArr _ ys =>
        (fix items (xs ys : list JsVal) {struct xs} : bool :=
           match xs, ys with
           | [], [] => true
           | x :: xs', y :: ys' => structEq x y && items xs' ys'
           | _, _ => false
           end) xs ys
    | JObj _ fa, JObj _ fb =>
        Nat.eqb (length fa) (length fb) &&
        (fix keys (fa : list (string * JsVal)) {struct fa} : bool :=
           match fa with
           | [] => true
           | (k, v) :: rest =>
               match field k fb with
               | Some w => structEq v w
               | None => false
               end && keys rest
           end) fa
    | JNum NaN, JNum NaN => true
    | _, _ => false
    end.

(** ** idb.ts: the durable store driver *)

Definition DEFAULT_DB : string := "local-db".
Definition DEFAULT_STORE : string := "local-db".

(** The object store one namespace resolves to.  [hasIndexedDB] is
    [typeof indexedDB !== "undefined"] together with [createStore] not
    throwing, so that [getOrCreateIdbStore] returns a handle; [rejects] makes
    every request of the handle fail. *)
Record Idb : Type := mkIdb {
  hasIndexedDB : bool;
  rejects : bool;
  cells : gmap string JsVal
}.

Definition getOrCreateIdbStore (d : Idb) : option (gmap string JsVal) :=
  if hasIndexedDB d then Some (cells d) else None.

(** [idbGet]: no handle, a failed request and a missing key all read as
    [undefined]. *)
Definition idbGet (d : Idb) (key : string) : JsVal :=
  match getOrCreateIdbStore d with
  | None => JUndefined
  | Some s => if rejects d then JUndefined else default JUndefined (s !! key)
  end.

(** [idbSet]: [null] deletes the key, any other value is stored; failures
    are swallowed. *)
Definition idbSet (d : Idb) (key : string) (value : JsVal) : Idb :=
  match getOrCreateIdbStore d with
  | None => d
  | Some s =>
      if rejects d then d
      else if strictEq value JNull
           then mkIdb (hasIndexedDB d) (rejects d) (delete key s)
           else mkIdb (hasIndexedDB d) (rejects d) (<[key := value]> s)
  end.

(** ** broadcast.ts: the channel driver *)

(** [hasWindow] is [typeof window !== "undefined"]; [channelOpens] says that
    [new BroadcastChannel(..)] does not throw. *)
Record Env : Type := mkEnv {
  hasWindow : bool;
  channelOpens : bool
}.

(** [getBroadcastChannel(ns)] returns a channel ([true]) or [null]. *)
Definition getBroadcastChannel (env : Env) : bool :=
  if negb (hasWindow env) then false else channelOpens env.

(** ** store-registry.ts: one Store Record *)

(** [listeners] is the [Set<() => void>] in insertion order, a callback
    standing by its number. *)
Record StoreState : Type := mkStore {
  value : JsVal;
  repairTo : JsVal;
  hydrated : bool;
  listeners : list nat
}.

Definition setVal (s : StoreState) (v : JsVal) : StoreState :=
  mkStore v (repairTo s) (hydrated s) (listeners s).

Definition setHydrated (s : StoreState) : StoreState :=
  mkStore (value s) (repairTo s) true (listeners s).

Definition setListeners (s : StoreState) (l : list nat) : StoreState :=
  mkStore (value s) (repairTo s) (hydrated s) l.

(** What a call does that the outside can see, in program order:
    - [EvAssign v]: [state.value = v];
    - [EvIdbGet]: [idbGet(key, ns)] is entered;
    - [EvPersist v]: [persist(v)] is called and enters [idbSet(key, v, ns)];
    - [EvPost msg]: [postMessage(msg)] on the channel;
    - [EvListen]: [bc.addEventListener("message", handler)];
    - [EvCall fn]: the listener [fn] is invoked. *)
Inductive Event : Type :=
| EvAssign (v : JsVal)
| EvIdbGet
| EvPersist (v : JsVal)
| EvPost (msg : JsVal)
| EvListen
| EvCall (fn : nat).

(** An async function parked at an [await]:
    - [TBroadcast safe]: [setValue]'s task at [await persist(safe)];
    - [TLoaded got]: [hydrate]'s task at [await idbGet(key, ns)], where [got]
      is what the read delivers;
    - [TWrittenBack]: [hydrate]'s task at [await persist(finalVal)]. *)
Inductive Task : Type :=
| TBroadcast (safe : JsVal)
| TLoaded (got : JsVal)
| TWrittenBack.

(** A record in its execution context: the durable store of its namespace
    as the requests issued so far leave it (requests are served in the order
    they are issued), the parked tasks, and whether the record's message
    handler is registered. *)
Record World : Type := mkWorld {
  store : StoreState;
  idb : Idb;
  pending : list Task;
  listening : bool
}.

Definition setStore (w : World) (s : StoreState) : World :=
  mkWorld s (idb w) (pending w) (listening w).

Section Store.

(** The arguments of [getStore] that its closures capture. *)
Variable key : string.
Variable isValid : JsVal -> bool.
Variable isEqual : JsVal -> JsVal -> bool.
Variable env : Env.

(** [for (const fn of state.listeners) fn()] *)
Definition notify (s : StoreState) : list Event :=
  map EvCall (listeners s).

(** [isValid(v) ? v : state.repairTo] *)
Definition repair (s : StoreState) (v : JsVal) : JsVal :=
  if isValid v then v else repairTo s.

(** [{ key, value: safe, removed: safe === null }] *)
Definition message (safe : JsVal) : JsVal :=
  JObj 0 [("key", JStr key); ("value", safe); ("removed", JBool (strictEq safe JNull))].

(** [persist(val)], up to its [await]: [idbSet(key, val, ns)] is entered. *)
Definition persist (d : Idb) (val : JsVal) : Idb * list Event :=
  (idbSet d key val, [EvPersist val]).

(** [setValue(next)] up to the point where it returns.  The async closure
    is called before [notify()]; it runs into [persist(safe)] and parks at
    the [await], and the rest of it becomes the task [TBroadcast safe]. *)
Definition setValue (w : World) (next : JsVal) : World * list Event :=
  let s := store w in
  let safe := repair s next in
  if isEqual (value s) safe then (w, [])
  else
    let s' := setVal s safe in
    let '(d', started) := persist (idb w) safe in
    (mkWorld s' d' (pending w ++ [TBroadcast safe]) (listening w),
     [EvAssign safe] ++ started ++ notify s').

(** The rest of [setValue]'s async closure, after [await persist(safe)]. *)
Definition broadcast (w : World) (safe : JsVal) : World * list Event :=
  (w, if getBroadcastChannel env then [EvPost (message safe)] else []).

(** [hydrate()] up to the point where it returns.  In a browser the async
    closure enters [idbGet(key, ns)] and parks at the [await]; the read is
    of the store as it is now.  Then the message handler is registered, if
    there is a channel. *)
Definition hydrate (w : World) : World * list Event :=
  let s := store w in
  if hydrated s then (w, [])
  else
    let s' := setHydrated s in
    if negb (hasWindow env) then (setStore w s', [])
    else
      let parked := pending w ++ [TLoaded (idbGet (idb w) key)] in
      if getBroadcastChannel env
      then (mkWorld s' (idb w) parked true, [EvIdbGet; EvListen])
      else (mkWorld s' (idb w) parked (listening w), [EvIdbGet]).

(** [hydrate]'s async closure from the moment the read delivers [got], up
    to its end or to [await persist(finalVal)]. *)
Definition hydrateLoaded (w : World) (got : JsVal) : World * list Event :=
  let s := store w in
  let persisted := nullish got (repairTo s) in
  let finalVal := repair s persisted in
  let s' := setVal s finalVal in
  if negb (isEqual persisted finalVal)
  then
    let '(d', started) := persist (idb w) finalVal in
    (mkWorld s' d' (pending w ++ [TWrittenBack]) (listening w), [EvAssign finalVal] ++ started)
  else (setStore w s', [EvAssign finalVal] ++ notify s').

(** The end of [hydrate]'s async closure after a write-back: [notify()]. *)
Definition hydrateWrittenBack (w : World) : World * list Event :=
  (w, notify (store w)).

(** The ["message"] handler, applied to [event?.data]. *)
Definition handler (w : World) (d : JsVal) : World * list Event :=
  if negb (truthy d) || negb (strictEq (getProp d "key") (JStr key)) then (w, [])
  else
    let s := store w in
    let incoming := if truthy (getProp d "removed") then repairTo s else getProp d "value" in
    let safe := repair s incoming in
    if negb (isEqual (value s) safe)
    then let s' := setVal s safe in (setStore w s', [EvAssign safe] ++ notify s')
    else (w, []).

Definition resume (w : World) (t : Task) : World * list Event :=
  match t with
  | TBroadcast safe => broadcast w safe
  | TLoaded got => hydrateLoaded w got
  | TWrittenBack => hydrateWrittenBack w
  end.

(** What can happen to a record: calls of its two methods, a parked task
    being resumed, a message arriving on the channel, and the hook adding or
    removing a listener ([store.listeners.add], [store.listeners.delete]). *)
Inductive Op : Type :=
| OSetValue (next : JsVal)
| OHydrate
| OResume (i : nat)
| OMessage (data : JsVal)
| OSubscribe (fn : nat)
| OUnsubscribe (fn : nat).

Definition step (w : World) (o : Op) : World * list Event :=
  match o with
  | OSetValue next => setValue w next
  | OHydrate => hydrate w
  | OResume i =>
      match pending w !! i with
      | Some t => resume (mkWorld (store w) (idb w) (delete i (pending w)) (listening w)) t
      | None => (w, [])
      end
  | OMessage d => if listening w then handler w d else (w, [])
  | OSubscribe fn =>
      if existsb (Nat.eqb fn) (listeners (store w)) then (w, [])
      else (setStore w (setListeners (store w) (listeners (store w) ++ [fn])), [])
  | OUnsubscribe fn =>
      (setStore w (setListeners (store w)
                     (List.filter (fun g => negb (Nat.eqb fn g)) (listeners (store w)))), [])
  end.

Fixpoint run (w : World) (ops : list Op) : World * list Event :=
  match ops with
  | [] => (w, [])
  | o :: rest =>
      let '(w1, t1) := step w o in
      let '(w2, t2) := run w1 rest in
      (w2, t1 ++ t2)
  end.

End Store.

(** The record [getStore] builds, in a context whose durable store is [d]. *)
Definition freshStore (initial : JsVal) : StoreState :=
  mkStore JUndefined initial false [].

Definition freshWorld (initial : JsVal) (d : Idb) : World :=
  mkWorld (freshStore initial) d [] false.

(** ** store-registry.ts: the registry *)

Record Ns : Type := mkNs {
  dbName : option string;
  storeName : option string
}.

(** [`${db}/${st}|${key}`] *)
Definition regKey (key : string) (ns : Ns) : string :=
  let db := default DEFAULT_DB (dbName ns) in
  let st := default DEFAULT_STORE (storeName ns) in
  db +:+ "/" +:+ st +:+ "|" +:+ key.

(** The Store Identity a request names: database, object store, key. *)
Definition identity (key : string) (ns : Ns) : string * string * string :=
  (default DEFAULT_DB (dbName ns), default DEFAULT_STORE (storeName ns), key).

(** A record of the registry, with what its closures captured. *)
Record StoreObj : Type := mkObj {
  oKey : string;
  oNs : Ns;
  oIsValid : JsVal -> bool;
  oIsEqual : JsVal -> JsVal -> bool;
  oState : StoreState
}.

(** [stores] maps a registry key to the record it names; records live in
    [heap] and are told apart by their position in it. *)
Record Registry : Type := mkRegistry {
  stores : gmap string nat;
  heap : list StoreObj
}.

Definition emptyRegistry : Registry := mkRegistry ∅ [].

Definition getStore (key : string) (initial : JsVal) (isValid : JsVal -> bool)
    (isEqual : JsVal -> JsVal -> bool) (ns : option Ns) (r : Registry) : nat * Registry :=
  let ns' := default (mkNs None None) ns in
  let k := regKey key ns' in
  match stores r !! k with
  | Some ref => (ref, r)
  | None =>
      let ref := length (heap r) in
      (ref, mkRegistry (<[k := ref]> (stores r))
                       (heap r ++ [mkObj key ns' isValid isEqual (freshStore initial)]))
  end.

Record Request : Type := mkRequest {
  qKey : string;
  qInitial : JsVal;
  qIsValid : JsVal -> bool;
  qIsEqual : JsVal -> JsVal -> bool;
  qNs : option Ns
}.

Definition request (r : Registry) (q : Request) : nat * Registry :=
  getStore (qKey q) (qInitial q) (qIsValid q) (qIsEqual q) (qNs q) r.

Definition requestKey (q : Request) : string :=
  regKey (qKey q) (default (mkNs None None) (qNs q)).

Definition requestIdentity (q : Request) : string * string * string :=
  identity (qKey q) (default (mkNs None None) (qNs q)).

(** The registry after a series of requests. *)
Fixpoint serve (r : Registry) (qs : list Request) : Registry :=
  match qs with
  | [] => r
  | q :: rest => serve (snd (request r q)) rest
  end.

(** Whether a character occurs in a string. *)
Fixpoint occurs (c : Ascii.ascii) (s : string) : bool :=
  match s with
  | EmptyString => false
  | String a rest => if Ascii.eqb a c then true else occurs c rest
  end.

(** ** Reading traces *)

(** The values handed to [persist], in order. *)
Fixpoint persists (tr : list Event) : list JsVal :=
  match tr with
  | [] => []
  | EvPersist v :: rest => v :: persists rest
  | _ :: rest => persists rest
  end.

(** The values assigned to [state.value], in order. *)
Fixpoint assigns (tr : list Event) : list JsVal :=
  match tr with
  | [] => []
  | EvAssign v :: rest => v :: assigns rest
  | _ :: rest => assigns rest
  end.

(** The listeners invoked, in order. *)
Fixpoint calls (tr : list Event) : list nat :=
  match tr with
  | [] => []
  | EvCall fn :: rest => fn :: calls rest
  | _ :: rest => calls rest
  end.

(** The messages posted, in order. *)
Fixpoint posts (tr : list Event) : list JsVal :=
  match tr with
  | [] => []
  | EvPost m :: rest => m :: posts rest
  | _ :: rest => posts rest
  end.

Definition isIO (e : Event) : bool :=
  match e with
  | EvPersist _ | EvPost _ => true
  | _ => false
  end.

Definition isCall (e : Event) : bool :=
  match e with
  | EvCall _ => true
  | _ => false
  end.

Definition isPost (e : Event) : bool :=
  match e with
  | EvPost _ => true
  | _ => false
  end.

(** No listener is invoked after an event that [p] selects. *)
Fixpoint noCallAfter (p : Event -> bool) (tr : list Event) : bool :=
  match tr with
  | [] => true
  | e :: rest => (if p e then negb (existsb isCall rest) else true) && noCallAfter p rest
  end.

(** Every notification comes before every persistence and broadcast event. *)
Definition notifiedFirst (tr : list Event) : bool := noCallAfter isIO tr.

(** Every notification comes before every posted message. *)
Definition notifiedBeforePost (tr : list Event) : bool := noCallAfter isPost tr.

Definition isSetValue (o : Op) : bool :=
  match o with
  | OSetValue _ => true
  | _ => false
  end.

(** ** A settings record, for the examples *)

(** [z.object({ fontSize: z.number().min(10).max(32) })] *)
Definition settingsSchema (v : JsVal) : bool :=
  match v with
  | JObj _ _ =>
      match getProp v "fontSize" with
      | JNum (Fin z) => (10 <=? z)%Z && (z <=? 32)%Z
      | _ => false
      end
  | _ => false
  end.

Definition fontSize (addr : nat) (z : Z) : JsVal :=
  JObj addr [("fontSize", JNum (Fin z))].

Definition settingsValid : JsVal -> bool := Hook.isValid settingsSchema.
Definition settingsEqual : JsVal -> JsVal -> bool := Hook.isEqual structEq.

Definition browser : Env := mkEnv true true.
Definition server : Env := mkEnv false false.

Definition emptyIdb : Idb := mkIdb true false ∅.

(** A record that is ready with [{fontSize: 16}] and has one listener. *)
Definition readyWorld : World :=
  mkWorld (mkStore (fontSize 1 16) (fontSize 1 16) true [7]) emptyIdb [] true.

(** [z.any()]: a schema that accepts every value, [undefined] included. *)
Definition anySchema (v : JsVal) : bool := true.

(** ** idb.ts: the cache of store handles *)

Module IdbCache.

(** [keyFor(dbName, storeName)] *)
Definition keyFor (dbName storeName : string) : string :=
  dbName +:+ "/" +:+ storeName.

(** A handle, standing by the names [createStore] was called with. *)
Record UseStore : Type := mkUseStore {
  usDb : string;
  usStore : string
}.

(** [getOrCreateIdbStore(dbName, storeName)] against [storeCache], an
    entry of which is a handle or, after a failed creation, [null].
    [defined] is [typeof indexedDB !== "undefined"]; [creates] says whether
    [createStore] returns rather than throws, should this call reach it. *)
Definition getOrCreateIdbStore (defined creates : bool) (dbName storeName : option string)
    (storeCache : gmap string (option UseStore))
    : option UseStore * gmap string (option UseStore) :=
  if negb defined then (None, storeCache)
  else
    let db := default DEFAULT_DB dbName in
    let st := default DEFAULT_STORE storeName in
    let k := keyFor db st in
    match storeCache !! k with
    | Some cached => (cached, storeCache)
    | None =>
        if creates
        then (Some (mkUseStore db st), <[k := Some (mkUseStore db st)]> storeCache)
        else (None, <[k := None]> storeCache)
    end.

(** One call of [getOrCreateIdbStore], with what the environment is like
    when it is made. *)
Record Call : Type := mkCall {
  cDefined : bool;
  cCreates : bool;
  cDb : option string;
  cStore : option string
}.

Definition call (storeCache : gmap string (option UseStore)) (c : Call)
    : option UseStore * gmap string (option UseStore) :=
  getOrCreateIdbStore (cDefined c) (cCreates c) (cDb c) (cStore c) storeCache.

(** The cache after a series of calls. *)
Fixpoint after (storeCache : gmap string (option UseStore)) (cs : list Call)
    : gmap string (option UseStore) :=
  match cs with
  | [] => storeCache
  | c :: rest => after (snd (call storeCache c)) rest
  end.

(** The database name the call resolves to. *)
Definition callDb (c : Call) : string := default DEFAULT_DB (cDb c).

Definition callStore (c : Call) : string := default DEFAULT_STORE (cStore c).

End IdbCache.

(** ** broadcast.ts: the cache of channels *)

Module Broadcast.

(** [nsKey(dbName, storeName)] *)
Definition nsKey (dbName storeName : string) : string :=
  dbName +:+ "/" +:+ storeName.

(** [channelName(dbName, storeName)] *)
Definition channelName (dbName storeName : string) : string :=
  "local-db:" +:+ dbName +:+ ":" +:+ storeName.

(** [getBroadcastChannel(opts)] against [bcCache].  A channel stands by
    the name it was constructed with, and a cached [null] is [Some None];
    [window] is [typeof window !== "undefined"], and [constructs] says
    whether [new BroadcastChannel(..)] returns rather than throws, should
    this call reach it. *)
Definition getBroadcastChannel (window constructs : bool) (opts : option Ns)
    (bcCache : gmap string (option string))
    : option string * gmap string (option string) :=
  if negb window then (None, bcCache)
  else
    let db := default DEFAULT_DB (opts ≫= dbName) in
    let st := default DEFAULT_STORE (opts ≫= storeName) in
    let k := nsKey db st in
    match bcCache !! k with
    | Some cached => (cached, bcCache)
    | None =>
        if constructs
        then (Some (channelName db st), <[k := Some (channelName db st)]> bcCache)
        else (None, <[k := None]> bcCache)
    end.

Record Call : Type := mkCall {
  cWindow : bool;
  cConstructs : bool;
  cOpts : option Ns
}.

Definition call (bcCache : gmap string (option string)) (c : Call)
    : option string * gmap string (option string) :=
  getBroadcastChannel (cWindow c) (cConstructs c) (cOpts c) bcCache.

Fixpoint after (bcCache : gmap string (option string)) (cs : list Call)
    : gmap string (option string) :=
  match cs with
  | [] => bcCache
  | c :: rest => after (snd (call bcCache c)) rest
  end.

Definition callDb (c : Call) : string := default DEFAULT_DB (cOpts c ≫= dbName).

Definition callStore (c : Call) : string := default DEFAULT_STORE (cOpts c ≫= storeName).

End Broadcast.

(** ** use-local-db.ts: the [setValue] the hook returns *)

Module UseLocalDb.
Section UseLocalDb.

(** The hook's [key] and [schema], and the predicates the record captured
    when it was created, which are another consumer's if that one came
    first. *)
Variable key : string.
Variable schema : JsVal -> bool.
Variable storeIsValid : JsVal -> bool.
Variable storeIsEqual : JsVal -> JsVal -> bool.

(** [snapshot] is the [value] of the render that built the callback. *)
Definition setValue (snapshot : JsVal) (w : World) (next : JsVal) : World * list Event :=
  if storeIsEqual snapshot next then (w, [])
  else
    let safe := if Hook.isValid schema next then next else repairTo (store w) in
    setValue key storeIsValid storeIsEqual w safe.

End UseLocalDb.
End UseLocalDb.

(** ** Reading traces, continued *)

(** How often the durable store is read, and how often a message handler is
    registered. *)
Fixpoint loads (tr : list Event) : nat :=
  match tr with
  | [] => 0
  | EvIdbGet :: rest => S (loads rest)
  | _ :: rest => loads rest
  end.

Fixpoint registrations (tr : list Event) : nat :=
  match tr with
  | [] => 0
  | EvListen :: rest => S (registrations rest)
  | _ :: rest => registrations rest
  end.

(** Whether the operations hold a [store.listeners.add(fn)]. *)
Definition subscribes (fn : nat) (o : Op) : bool :=
  match o with
  | OSubscribe g => Nat.eqb fn g
  | _ => false
  end.

(** Whether the operation is the hook adding or removing a listener. *)
Definition changesListeners (o : Op) : bool :=
  match o with
  | OSubscribe _ | OUnsubscribe _ => true
  | _ => false
  end.

(** Every handle in the cache sits under the cache key of its own names,
    and its database name holds no ["/"]. *)
Definition idbCacheOwn (cache : gmap string (option IdbCache.UseStore)) : Prop :=
  forall k h, cache !! k = Some (Some h) ->
    k = IdbCache.keyFor (IdbCache.usDb h) (IdbCache.usStore h) /\
    occurs "/"%char (IdbCache.usDb h) = false.

(** Every channel in the cache bears the name of a namespace whose key it
    sits under, the database name of which holds no ["/"]. *)
Definition bcCacheOwn (cache : gmap string (option string)) : Prop :=
  forall k n, cache !! k = Some (Some n) ->
    exists db st, k = Broadcast.nsKey db st /\ n = Broadcast.channelName db st /\
                  occurs "/"%char db = false.

(** The content of a value, apart from where its objects and arrays live:
    what a structured clone keeps of it.  A value read from the durable
    store or received in a message is a clone of the one written or posted,
    so that it agrees with it in content and not in identity. *)
Fixpoint content (v : JsVal) : JsVal :=
  match v with
  | JObj _ fs =>
      JObj 0 ((fix fields (fs : list (string * JsVal)) : list (string * JsVal) :=
                 match fs with
                 | [] => []
                 | (k, x) :: rest => (k, content x) :: fields rest
                 end) fs)
  | JArr _ xs =>
      JArr 0 ((fix items (xs : list JsVal) : list JsVal :=
                 match xs with
                 | [] => []
                 | x :: rest => content x :: items rest
                 end) xs)
  | _ => v
  end.

(** Whether the task is a hydration whose read has not delivered yet. *)
Definition isLoad (t : Task) : bool :=
  match t with
  | TLoaded _ => true
  | _ => false
  end.

(** A registry in which every key names a record of the heap and no record
    is named by two keys; every registry built by [getStore] is one. *)
Definition wellFormed (r : Registry) : Prop :=
  (forall k ref, stores r !! k = Some ref -> ref < length (heap r)) /\
  (forall k1 k2 ref, stores r !! k1 = Some ref -> stores r !! k2 = Some ref -> k1 = k2).

(** * Properties *)

(** ** The equality contract *)

(** C8: the hook's [isEqual], used for no-op detection and for broadcast
    de-duplication, agrees on every pair of values with the contract of the
    specification: equal when identical ([===]); otherwise unequal when an
    operand is null or undefined; otherwise the deep comparison when both are
    objects or arrays; otherwise strict equality. *)
Theorem isEqual_is_equalityContract (deepEqual : JsVal -> JsVal -> bool) (a b : JsVal) :
  Hook.isEqual deepEqual a b = Hook.equalityContract deepEqual a b.
Proof.
  unfold Hook.isEqual, Hook.equalityContract.
  destruct (strictEq a b) eqn:Hid; [reflexivity |].
  destruct a as [| | x | [| x] | x | r fa | r xs], b as [| | y | [| y] | y | r' fb | r' ys];
    cbn [truthy typeofObject Hook.isAbsent Hook.isComposite negb orb andb];
    try reflexivity;
    repeat match goal with
           | |- context [negb ?c] => destruct c; cbn [negb orb andb]
           | |- context [if ?c then _ else _] => destruct c; cbn [negb orb andb]
           end;
    reflexivity.
Qed.

Example isEqual_same_content :
  Hook.isEqual structEq (fontSize 1 20) (fontSize 2 20) = true /\
  Hook.isEqual structEq (fontSize 1 20) (fontSize 2 21) = false /\
  Hook.isEqual structEq (JNum (Fin 0)) (JNum (Fin 0)) = true /\
  Hook.isEqual structEq JNull JUndefined = false /\
  Hook.isEqual structEq (JStr "") (JObj 1 []) = false.
Proof. vm_compute. repeat split; reflexivity. Qed.

(** [isEqual] is reflexive on everything but [NaN]. *)
Lemma strictEq_refl (a : JsVal) : a <> JNum NaN -> strictEq a a = true.
Proof.
  destruct a as [| | x | [| x] | x | r fa | r xs]; cbn; intros H; try reflexivity.
  - destruct x; reflexivity.
  - congruence.
  - apply Z.eqb_refl.
  - apply String.eqb_refl.
  - apply Nat.eqb_refl.
  - apply Nat.eqb_refl.
Qed.

Lemma isEqual_refl (deepEqual : JsVal -> JsVal -> bool) (a : JsVal) :
  a <> JNum NaN -> Hook.isEqual deepEqual a a = true.
Proof.
  intros H. unfold Hook.isEqual. rewrite (strictEq_refl a H). reflexivity.
Qed.

Lemma isEqual_NaN (deepEqual : JsVal -> JsVal -> bool) :
  Hook.isEqual deepEqual (JNum NaN) (JNum NaN) = false.
Proof. reflexivity. Qed.

(** ** The registry *)

Lemma wellFormed_empty : wellFormed emptyRegistry.
Proof.
  split; cbn; intros *; rewrite lookup_empty; discriminate.
Qed.

Lemma request_wellFormed (r : Registry) (q : Request) :
  wellFormed r -> wellFormed (snd (request r q)).
Proof.
  intros [Hlt Hinj]. unfold request, getStore. cbn zeta.
  set (k := regKey _ _).
  destruct (stores r !! k) as [ref |] eqn:Hk; cbn [snd]; [split; assumption |].
  split; cbn [stores heap].
  - intros k' ref'. rewrite length_app. cbn.
    destruct (decide (k = k')) as [<- | Hne].
    + rewrite lookup_insert_eq. intros [= <-]. lia.
    + rewrite lookup_insert_ne by assumption. intros H. apply Hlt in H. lia.
  - intros k1 k2 ref'.
    destruct (decide (k = k1)) as [<- | H1], (decide (k = k2)) as [<- | H2].
    + reflexivity.
    + rewrite lookup_insert_eq, lookup_insert_ne by assumption.
      intros [= <-] H. apply Hlt in H. lia.
    + rewrite lookup_insert_eq, lookup_insert_ne by assumption.
      intros H [= <-]. apply Hlt in H. lia.
    + rewrite !lookup_insert_ne by assumption. apply Hinj.
Qed.

Lemma serve_wellFormed (qs : list Request) (r : Registry) :
  wellFormed r -> wellFormed (serve r qs).
Proof.
  revert r. induction qs as [| q qs IH]; intros r H; cbn; [assumption |].
  apply IH, request_wellFormed, H.
Qed.

(** After a request, the registry names the record it returned. *)
Lemma request_registers (r : Registry) (q : Request) :
  stores (snd (request r q)) !! requestKey q = Some (fst (request r q)).
Proof.
  unfold request, requestKey, getStore. cbn zeta.
  destruct (stores r !! _) as [ref |] eqn:Hk; cbn [fst snd stores]; [assumption |].
  apply lookup_insert_eq.
Qed.

(** A request never renames a record: creation is first-writer-wins. *)
Lemma request_keeps (r : Registry) (q : Request) (k : string) (ref : nat) :
  stores r !! k = Some ref -> stores (snd (request r q)) !! k = Some ref.
Proof.
  intros H. unfold request, getStore. cbn zeta.
  destruct (stores r !! regKey _ _) as [ref' |] eqn:Hk; cbn [snd stores]; [assumption |].
  rewrite lookup_insert_ne; [assumption |]. intros Heq. rewrite Heq in Hk. congruence.
Qed.

Lemma serve_keeps (qs : list Request) (r : Registry) (k : string) (ref : nat) :
  stores r !! k = Some ref -> stores (serve r qs) !! k = Some ref.
Proof.
  revert r. induction qs as [| q qs IH]; intros r H; cbn; [assumption |].
  apply IH, request_keeps, H.
Qed.

(** A request returns the record the registry names, when it names one. *)
Lemma request_finds (r : Registry) (q : Request) (ref : nat) :
  stores r !! requestKey q = Some ref -> fst (request r q) = ref.
Proof.
  unfold request, requestKey, getStore. intros ->. reflexivity.
Qed.

(** Two requests, with any requests before and between them, return the
    same record exactly when their registry keys are the same string. *)
Theorem same_record_iff_same_regKey (before between : list Request) (q1 q2 : Request) :
  let r0 := serve emptyRegistry before in
  let r1 := snd (request r0 q1) in
  let r2 := serve r1 between in
  fst (request r0 q1) = fst (request r2 q2) <-> requestKey q1 = requestKey q2.
Proof.
  cbn zeta.
  set (r0 := serve emptyRegistry before).
  set (r1 := snd (request r0 q1)).
  set (r2 := serve r1 between).
  assert (Hwf : wellFormed (snd (request r2 q2))).
  { apply request_wellFormed, serve_wellFormed, request_wellFormed,
      serve_wellFormed, wellFormed_empty. }
  assert (H1 : stores (snd (request r2 q2)) !! requestKey q1 = Some (fst (request r0 q1))).
  { apply request_keeps, serve_keeps, request_registers. }
  pose proof (request_registers r2 q2) as H2.
  split.
  - intros Heq. rewrite Heq in H1. exact (proj2 Hwf _ _ _ H1 H2).
  - intros Heq. rewrite Heq in H1. congruence.
Qed.

(** Requests for one identity have one registry key. *)
Lemma identity_regKey (k1 k2 : string) (n1 n2 : Ns) :
  identity k1 n1 = identity k2 n2 -> regKey k1 n1 = regKey k2 n2.
Proof.
  unfold identity, regKey. intros [= -> -> ->]. reflexivity.
Qed.

Lemma append_separator_inj (c : Ascii.ascii) (a1 a2 b1 b2 : string) :
  occurs c a1 = false -> occurs c a2 = false ->
  a1 +:+ String c b1 = a2 +:+ String c b2 -> a1 = a2 /\ b1 = b2.
Proof.
  revert a2. induction a1 as [| x a1 IH]; intros [| y a2]; cbn.
  - intros _ _ [= ->]. split; reflexivity.
  - intros _ Hy [= <- _]. rewrite Ascii.eqb_refl in Hy. discriminate.
  - intros Hx _ [= -> _]. rewrite Ascii.eqb_refl in Hx. discriminate.
  - destruct (Ascii.eqb x c) eqn:Hx; [discriminate |].
    destruct (Ascii.eqb y c) eqn:Hy; [discriminate |].
    intros H1 H2 [= -> Hrest]. destruct (IH a2 H1 H2 Hrest) as [-> ->].
    split; reflexivity.
Qed.

(** Where the database name holds no ["/"] and the object store name no
    ["|"], the registry key determines the identity. *)
Theorem regKey_inj (k1 k2 : string) (n1 n2 : Ns) :
  occurs "/"%char (default DEFAULT_DB (dbName n1)) = false ->
  occurs "/"%char (default DEFAULT_DB (dbName n2)) = false ->
  occurs "|"%char (default DEFAULT_STORE (storeName n1)) = false ->
  occurs "|"%char (default DEFAULT_STORE (storeName n2)) = false ->
  regKey k1 n1 = regKey k2 n2 -> identity k1 n1 = identity k2 n2.
Proof.
  unfold regKey, identity. cbn zeta.
  intros Hd1 Hd2 Hs1 Hs2 H.
  apply (append_separator_inj _ _ _ _ _ Hd1 Hd2) in H. destruct H as [-> H].
  apply (append_separator_inj _ _ _ _ _ Hs1 Hs2) in H. destruct H as [-> ->].
  reflexivity.
Qed.

(** C1: two requests should return one record exactly when their
    identities (database, object store, key; each name with its default)
    are equal.  The registry key does not keep the three components apart:
    the identities [("app", "drafts|x", "y")] and [("app", "drafts", "x|y")]
    differ, yet both have the registry key ["app/drafts|x|y"], and the
    second request is handed the record created for the first, whose
    closures persist under the key ["y"] of the store ["drafts|x"]. *)
Theorem getStore_aliases_distinct_identities :
  let nsA := mkNs (Some "app") (Some "drafts|x") in
  let nsB := mkNs (Some "app") (Some "drafts") in
  let first := getStore "y" JNull settingsValid settingsEqual (Some nsA) emptyRegistry in
  let second := getStore "x|y" JNull settingsValid settingsEqual (Some nsB) (snd first) in
  identity "y" nsA <> identity "x|y" nsB /\
  regKey "y" nsA = regKey "x|y" nsB /\
  fst second = fst first /\
  (oKey <$> heap (snd second) !! fst second) = Some "y" /\
  (oNs <$> heap (snd second) !! fst second) = Some nsA.
Proof.
  cbn zeta. split; [discriminate |]. vm_compute. repeat split; reflexivity.
Qed.

(** The same happens across databases: ["app/v2"] with store ["ui"] and
    ["app"] with store ["v2/ui"] share one record. *)
Example getStore_aliases_across_databases :
  let nsA := mkNs (Some "app/v2") (Some "ui") in
  let nsB := mkNs (Some "app") (Some "v2/ui") in
  let first := getStore "settings" JNull settingsValid settingsEqual (Some nsA) emptyRegistry in
  let second := getStore "settings" JNull settingsValid settingsEqual (Some nsB) (snd first) in
  identity "settings" nsA <> identity "settings" nsB /\ fst second = fst first.
Proof.
  cbn zeta. split; [discriminate |]. vm_compute. reflexivity.
Qed.

(** A request with no namespace and one that spells the defaults out name
    one identity. *)
Example default_namespace_identity (key : string) :
  identity key (mkNs None None) = identity key (mkNs (Some "local-db") (Some "local-db")).
Proof. reflexivity. Qed.

(** X1: Requests for one identity always return one record. *)
Theorem same_identity_same_record (before between : list Request) (q1 q2 : Request) :
  requestIdentity q1 = requestIdentity q2 ->
  let r0 := serve emptyRegistry before in
  fst (request r0 q1) = fst (request (serve (snd (request r0 q1)) between) q2).
Proof.
  intros H. cbn zeta. apply same_record_iff_same_regKey.
  apply identity_regKey, H.
Qed.

(** X2: Requests for different identities return different records, as long as
    no database name holds a ["/"] and no object store name a ["|"]. *)
Theorem distinct_identity_distinct_record (before between : list Request) (q1 q2 : Request) :
  let n1 := default (mkNs None None) (qNs q1) in
  let n2 := default (mkNs None None) (qNs q2) in
  occurs "/"%char (default DEFAULT_DB (dbName n1)) = false ->
  occurs "/"%char (default DEFAULT_DB (dbName n2)) = false ->
  occurs "|"%char (default DEFAULT_STORE (storeName n1)) = false ->
  occurs "|"%char (default DEFAULT_STORE (storeName n2)) = false ->
  requestIdentity q1 <> requestIdentity q2 ->
  let r0 := serve emptyRegistry before in
  fst (request r0 q1) <> fst (request (serve (snd (request r0 q1)) between) q2).
Proof.
  cbn zeta. intros Hd1 Hd2 Hs1 Hs2 Hne Heq.
  apply same_record_iff_same_regKey in Heq.
  apply Hne. unfold requestIdentity. apply regKey_inj; assumption.
Qed.

(** ** The durable store driver *)

(** On a store that opens and answers, the key that [idbSet] wrote reads as
    the value written, and as [undefined] when the value was [null]. *)
Lemma idbGet_idbSet_usable (d : Idb) (key : string) (v : JsVal) :
  hasIndexedDB d = true -> rejects d = false ->
  idbGet (idbSet d key v) key = (if strictEq v JNull then JUndefined else v).
Proof.
  intros Hh Hr. unfold idbGet, idbSet, getOrCreateIdbStore. rewrite Hh, Hr.
  destruct (strictEq v JNull); cbn [hasIndexedDB rejects cells].
  - rewrite lookup_delete_eq. reflexivity.
  - rewrite lookup_insert_eq. reflexivity.
Qed.

(** Reading a key back the way [hydrate] does ([idbGet(..) ?? fallback])
    after [idbSet] wrote [v] there yields [v], whether the store is usable
    or not, and also when [v] is [null] and the key was deleted. *)
Lemma idb_read_back (d : Idb) (key : string) (v : JsVal) :
  nullish (idbGet (idbSet d key v) key) v = v.
Proof.
  unfold idbGet, idbSet, getOrCreateIdbStore.
  destruct (hasIndexedDB d) eqn:Hh; [| rewrite Hh; reflexivity].
  destruct (rejects d) eqn:Hr; [rewrite Hh, Hr; reflexivity |].
  destruct (strictEq v JNull) eqn:Hn; cbn [hasIndexedDB rejects cells].
  - rewrite lookup_delete_eq. reflexivity.
  - rewrite lookup_insert_eq. destruct v; reflexivity.
Qed.

(** A key the store does not hold reads as [undefined]. *)
Lemma idbGet_missing (d : Idb) (key : string) :
  cells d !! key = None -> idbGet d key = JUndefined.
Proof.
  intros H. unfold idbGet, getOrCreateIdbStore.
  destruct (hasIndexedDB d); [| reflexivity].
  destruct (rejects d); [reflexivity |]. rewrite H. reflexivity.
Qed.

(** ** Traces *)


Lemma assigns_app (t1 t2 : list Event) : assigns (t1 ++ t2) = assigns t1 ++ assigns t2.
Proof.
  induction t1 as [| [] t1 IH]; cbn; [reflexivity | ..]; rewrite ?IH; reflexivity.
Qed.

Lemma persists_calls (l : list nat) : persists (map EvCall l) = [].
Proof. induction l as [| fn l IH]; cbn; [reflexivity | exact IH]. Qed.

Lemma assigns_calls (l : list nat) : assigns (map EvCall l) = [].
Proof. induction l as [| fn l IH]; cbn; [reflexivity | exact IH]. Qed.

Lemma posts_calls (l : list nat) : posts (map EvCall l) = [].
Proof. induction l as [| fn l IH]; cbn; [reflexivity | exact IH]. Qed.

Lemma calls_calls (l : list nat) : calls (map EvCall l) = l.
Proof. induction l as [| fn l IH]; cbn; [reflexivity | rewrite IH; reflexivity]. Qed.

(** Listener calls followed by events that are no calls: nothing that [p]
    selects among the calls, so no call comes after a selected event. *)
Lemma noCallAfter_calls_then (p : Event -> bool) (l : list nat) (tail : list Event) :
  (forall fn, p (EvCall fn) = false) ->
  existsb isCall tail = false ->
  noCallAfter p (map EvCall l ++ tail) = true.
Proof.
  intros Hp Htail. induction l as [| fn l IH]; cbn.
  - induction tail as [| e tail IHt]; cbn; [reflexivity |].
    cbn in Htail. apply orb_false_iff in Htail. destruct Htail as [_ Ht].
    rewrite Ht, (IHt Ht). destruct (p e); reflexivity.
  - rewrite Hp, IH. reflexivity.
Qed.

Section StoreFacts.

Context (key : string) (isValid : JsVal -> bool) (isEqual : JsVal -> JsVal -> bool).

(** ** Hydration *)

(** What [hydrate]'s async closure does once the read has delivered [got]. *)
Lemma hydrateLoaded_spec (w : World) (got : JsVal) :
  let s := store w in
  let persisted := nullish got (repairTo s) in
  let finalVal := repair isValid s persisted in
  let r := hydrateLoaded key isValid isEqual w got in
  store (fst r) = setVal s finalVal /\
  assigns (snd r) = [finalVal] /\
  persists (snd r) = (if isEqual persisted finalVal then [] else [finalVal]) /\
  (if isEqual persisted finalVal
   then calls (snd r) = listeners s /\ pending (fst r) = pending w /\ idb (fst r) = idb w
   else calls (snd r) = [] /\ pending (fst r) = pending w ++ [TWrittenBack]
        /\ idb (fst r) = idbSet (idb w) key finalVal).
Proof.
  cbn zeta. unfold hydrateLoaded, persist.
  destruct (isEqual _ _); unfold notify;
    cbn [negb fst snd store pending idb setStore app assigns persists calls setVal listeners].
  - rewrite persists_calls, assigns_calls, calls_calls. repeat split; reflexivity.
  - repeat split; reflexivity.
Qed.

(** A missing read falls back to the repair target, which is kept whether
    it passes validation or not. *)
Lemma hydrate_missing_final (s : StoreState) :
  repair isValid s (nullish JUndefined (repairTo s)) = repairTo s.
Proof. unfold repair. cbn. destruct (isValid _); reflexivity. Qed.

(** Hydration of a fresh record in a browser, run to its end: the call,
    the delivery of the read, and the end of the write-back if there is one. *)
Lemma hydration_run (channel : bool) (initial : JsVal) (d : Idb) :
  let persisted := nullish (idbGet d key) initial in
  let finalVal := if isValid persisted then persisted else initial in
  let r := run key isValid isEqual (mkEnv true channel) (freshWorld initial d)
               [OHydrate; OResume 0; OResume 0] in
  value (store (fst r)) = finalVal /\
  pending (fst r) = [] /\
  persists (snd r) = (if isEqual persisted finalVal then [] else [finalVal]).
Proof.
  cbn zeta.
  unfold run, step, resume, hydrate, hydrateLoaded, hydrateWrittenBack, persist, repair,
    notify, freshWorld, freshStore, getBroadcastChannel, setStore, setVal, setHydrated.
  cbn [store hydrated hasWindow channelOpens negb pending idb app value repairTo listeners].
  destruct channel;
    cbn [lookup list_lookup pending store idb listening delete list_delete
         repairTo value listeners hydrated];
    destruct (isEqual _ _);
    cbn [negb pending app lookup list_lookup store idb listening fst snd value
         persists listeners map delete list_delete];
    repeat split; reflexivity.
Qed.

(** C2, as amended: hydration of a fresh record in a browser, run to its
    end.  The record ends with the validated value, and the values written
    back are none when the value read, with the repair target standing in
    for a missing one, equals the final value under the equality contract,
    and the final value alone, once, when it differs.  For a key the durable
    store does not hold the final value is the repair target, and nothing is
    written back as long as the repair target equals itself. *)
Theorem hydration_write_back (channel : bool) (initial : JsVal) (d : Idb) :
  let got := idbGet d key in
  let persisted := nullish got initial in
  let finalVal := if isValid persisted then persisted else initial in
  let r := run key isValid isEqual (mkEnv true channel) (freshWorld initial d)
               [OHydrate; OResume 0; OResume 0] in
  value (store (fst r)) = finalVal /\
  pending (fst r) = [] /\
  persists (snd r) = (if isEqual persisted finalVal then [] else [finalVal]) /\
  (cells d !! key = None ->
     finalVal = initial /\
     persists (snd r) = (if isEqual initial initial then [] else [initial])).
Proof.
  cbn zeta. destruct (hydration_run channel initial d) as (Hv & Hp & Hw).
  repeat split; try assumption.
  - rewrite (idbGet_missing d key H). cbn. destruct (isValid initial); reflexivity.
  - rewrite Hw, (idbGet_missing d key H). cbn. destruct (isValid initial); reflexivity.
Qed.

(** C2, as the specification has it, fails: the settings record with
    initial value [{fontSize: 16}], valid under its schema, and nothing
    persisted.  Hydration yields [{fontSize: 16}] and writes nothing back. *)
Lemma hydration_of_missing_key_writes_nothing :
  let w := freshWorld (fontSize 1 16) emptyIdb in
  let r := run "settings" settingsValid settingsEqual browser w
               [OHydrate; OResume 0; OResume 0] in
  cells (idb w) !! "settings" = None /\
  settingsValid (repairTo (store w)) = true /\
  value (store (fst r)) = fontSize 1 16 /\
  pending (fst r) = [] /\
  persists (snd r) = [] /\
  length (persists (snd r)) <> 1.
Proof.
  vm_compute. repeat split; try reflexivity. discriminate.
Qed.

(** ** setValue *)

Lemma run_nil (env : Env) (w : World) : run key isValid isEqual env w [] = (w, []).
Proof. reflexivity. Qed.

Lemma run_cons (env : Env) (w : World) (o : Op) (rest : list Op) :
  run key isValid isEqual env w (o :: rest) =
  (fst (run key isValid isEqual env (fst (step key isValid isEqual env w o)) rest),
   snd (step key isValid isEqual env w o)
     ++ snd (run key isValid isEqual env (fst (step key isValid isEqual env w o)) rest)).
Proof.
  cbn [run]. destruct (step _ _ _ _ _ _) as [w1 t1].
  destruct (run _ _ _ _ _ _) as [w2 t2]. reflexivity.
Qed.

(** A call whose repaired value equals the current one does nothing. *)
Lemma setValue_same (w : World) (next : JsVal) :
  isEqual (value (store w)) (repair isValid (store w) next) = true ->
  setValue key isValid isEqual w next = (w, []).
Proof. intros H. unfold setValue. cbn zeta. rewrite H. reflexivity. Qed.

(** A call whose repaired value differs assigns it, enters [persist], parks
    the broadcast and notifies, in this order. *)
Lemma setValue_changes (w : World) (next : JsVal) :
  isEqual (value (store w)) (repair isValid (store w) next) = false ->
  setValue key isValid isEqual w next =
  (mkWorld (setVal (store w) (repair isValid (store w) next))
           (idbSet (idb w) key (repair isValid (store w) next))
           (pending w ++ [TBroadcast (repair isValid (store w) next)])
           (listening w),
   [EvAssign (repair isValid (store w) next); EvPersist (repair isValid (store w) next)]
     ++ map EvCall (listeners (store w))).
Proof. intros H. unfold setValue. cbn zeta. rewrite H. reflexivity. Qed.

(** C3, as amended: a [setValue] call that changes the state assigns the
    value, then enters [persist] (and with it the durable store driver),
    then invokes every listener, all before it returns; the message is
    posted by the task the call parks, so only after every listener has been
    invoked. *)
Theorem setValue_order (env : Env) (w : World) (next : JsVal) :
  isEqual (value (store w)) (repair isValid (store w) next) = false ->
  let safe := repair isValid (store w) next in
  let r := setValue key isValid isEqual w next in
  let later := resume key isValid isEqual env (fst r) (TBroadcast safe) in
  snd r = [EvAssign safe; EvPersist safe] ++ map EvCall (listeners (store w)) /\
  posts (snd r) = [] /\
  pending (fst r) = pending w ++ [TBroadcast safe] /\
  snd later = (if getBroadcastChannel env then [EvPost (message key safe)] else []) /\
  notifiedBeforePost (snd r ++ snd later) = true.
Proof.
  intros H. cbn zeta. rewrite (setValue_changes w next H).
  cbn [fst snd resume broadcast app posts pending].
  rewrite posts_calls. repeat split; try reflexivity.
  unfold notifiedBeforePost. cbn [noCallAfter isPost andb].
  apply noCallAfter_calls_then; [reflexivity |].
  destruct (getBroadcastChannel env); reflexivity.
Qed.

(** C3, as the specification has it, fails: with one listener, a call that
    changes the state enters [persist] before the listener runs. *)
Lemma setValue_persists_before_notifying :
  let r := setValue "settings" settingsValid settingsEqual readyWorld (fontSize 2 20) in
  value (store (fst r)) = fontSize 2 20 /\
  snd r = [EvAssign (fontSize 2 20); EvPersist (fontSize 2 20); EvCall 7] /\
  notifiedFirst (snd r) = false.
Proof.
  vm_compute. repeat split; reflexivity.
Qed.



(** The same after a plain hydration of a key the store does not hold: the
    record is at the repair target, the invalid value changes nothing, and
    the store holds nothing. *)
Example setValue_invalid_after_hydration_stores_nothing :
  let w := fst (run "settings" settingsValid settingsEqual browser
                  (freshWorld (fontSize 1 16) emptyIdb) [OHydrate; OResume 0]) in
  let r := setValue "settings" settingsValid settingsEqual w (fontSize 3 999) in
  value (store (fst r)) = fontSize 1 16 /\
  persists (snd r) = [] /\
  idbGet (idb (fst r)) "settings" = JUndefined.
Proof.
  vm_compute. repeat split; reflexivity.
Qed.


(** [repair] reads nothing of the record but its repair target. *)
Lemma repair_ext (s s' : StoreState) (v : JsVal) :
  repairTo s' = repairTo s -> repair isValid s' v = repair isValid s v.
Proof. intros H. unfold repair. rewrite H. reflexivity. Qed.

(** C5, as amended: a [setValue] call whose repaired value equals the
    current value under the equality contract is a complete no-op, and so is
    the same call made again.  When a call changes the state, a call that
    follows it with a repaired value equal to the first one's is a no-op:
    the two calls together invoke every listener once, enter [persist] once
    and park one broadcast, which posts at most one message. *)
Theorem setValue_noop_and_twice (env : Env) (w : World) (x x' : JsVal) :
  let s := store w in
  let safe := repair isValid s x in
  let safe' := repair isValid s x' in
  (isEqual (value s) safe = true ->
   setValue key isValid isEqual w x = (w, []) /\
   run key isValid isEqual env w [OSetValue x; OSetValue x] = (w, [])) /\
  (isEqual (value s) safe = false -> isEqual safe safe' = true ->
   let r := run key isValid isEqual env w [OSetValue x; OSetValue x'] in
   r = setValue key isValid isEqual w x /\
   value (store (fst r)) = safe /\
   calls (snd r) = listeners s /\
   persists (snd r) = [safe] /\
   posts (snd r) = [] /\
   pending (fst r) = pending w ++ [TBroadcast safe] /\
   length (posts (snd (resume key isValid isEqual env (fst r) (TBroadcast safe)))) <= 1).
Proof.
  cbn zeta. split.
  - intros H. split; [apply setValue_same, H |].
    rewrite !run_cons, run_nil. cbn [step].
    rewrite (setValue_same w x H). cbn [fst snd].
    rewrite (setValue_same w x H). reflexivity.
  - intros H H'. rewrite !run_cons, run_nil. cbn [step].
    rewrite (setValue_changes w x H). cbn [fst snd].
    rewrite setValue_same.
    + cbn [fst snd store value pending setVal app calls persists posts resume broadcast].
      rewrite !app_nil_r, calls_calls, persists_calls, posts_calls.
      repeat split; try reflexivity.
      destruct (getBroadcastChannel env); cbn; lia.
    + cbn [store].
      rewrite (repair_ext (store w) (setVal (store w) _) x') by reflexivity.
      exact H'.
Qed.

(** C5, as the specification has it, fails: the record already holds
    [{fontSize: 16}]; two successive calls with an equal value notify nobody,
    not once. *)
Lemma setValue_twice_on_current_value_notifies_nobody :
  let r := run "settings" settingsValid settingsEqual browser readyWorld
               [OSetValue (fontSize 2 16); OSetValue (fontSize 2 16)] in
  settingsEqual (fontSize 2 16) (fontSize 2 16) = true /\
  listeners (store readyWorld) = [7] /\
  snd r = [] /\
  length (calls (snd r)) <> 1.
Proof.
  vm_compute. repeat split; try reflexivity. discriminate.
Qed.

(** ** The message handler *)

(** C6: what the handler does with [event.data = d].  A message that is
    falsy or whose [key] is not the record's key changes nothing and notifies
    nobody.  A message for the record's key with [removed: true] makes the
    repair target the incoming value, so the record moves to the repair
    target and to nothing else.  In every case the repaired incoming value is
    assigned, and the listeners notified, only if it differs from the current
    value under the equality contract; the handler never persists and never
    posts. *)
Theorem handler_spec (w : World) (d : JsVal) :
  let s := store w in
  let rt := repairTo s in
  let incoming := if truthy (getProp d "removed") then rt else getProp d "value" in
  let safe := repair isValid s incoming in
  let r := handler key isValid isEqual w d in
  ((truthy d = false \/ strictEq (getProp d "key") (JStr key) = false) -> r = (w, [])) /\
  (truthy d = true -> strictEq (getProp d "key") (JStr key) = true ->
   r = (if isEqual (value s) safe then (w, [])
        else (setStore w (setVal s safe), EvAssign safe :: map EvCall (listeners s)))) /\
  (truthy d = true -> strictEq (getProp d "key") (JStr key) = true ->
   getProp d "removed" = JBool true ->
   safe = rt /\
   (forall v, In v (assigns (snd r)) -> v = rt) /\
   (value (store (fst r)) = JNull -> rt = JNull \/ value s = JNull)) /\
  (snd r <> [] -> isEqual (value s) (value (store (fst r))) = false) /\
  persists (snd r) = [] /\ posts (snd r) = [].
Proof.
  cbn zeta. unfold handler.
  destruct (truthy d) eqn:Ht; cbn [negb orb].
  2:{ repeat split; try reflexivity; try discriminate. intros H. exfalso. apply H. reflexivity. }
  destruct (strictEq (getProp d "key") (JStr key)) eqn:Hk; cbn [negb].
  2:{ repeat split; try reflexivity; try discriminate. intros H. exfalso. apply H. reflexivity. }
  split; [intros [H | H]; discriminate |].
  split.
  { intros _ _. destruct (isEqual _ _); reflexivity. }
  split.
  { intros _ _ Hr. rewrite Hr. cbn [truthy].
    assert (Hsafe : repair isValid (store w) (repairTo (store w)) = repairTo (store w)).
    { unfold repair. destruct (isValid _); reflexivity. }
    rewrite Hsafe. split; [reflexivity |].
    destruct (isEqual (value (store w)) (repairTo (store w))); cbn [negb fst snd assigns app].
    - split; [intros v [] | intros H; right; exact H].
    - unfold notify. rewrite assigns_calls. split.
      + intros v [<- | []]. reflexivity.
      + cbn. intros H. left. exact H. }
  destruct (isEqual (value (store w)) _) eqn:He; cbn [negb fst snd].
  - repeat split; try reflexivity. intros H. exfalso. apply H. reflexivity.
  - unfold notify. cbn [app persists posts store setStore setVal value listeners].
    rewrite persists_calls, posts_calls. repeat split; try reflexivity.
    intros _. exact He.
Qed.

(** ** What a record's value can be *)

Lemma repair_good (s : StoreState) (v : JsVal) :
  isValid (repair isValid s v) = true \/ repair isValid s v = repairTo s.
Proof.
  unfold repair. destruct (isValid v) eqn:H; [left; exact H | right; reflexivity].
Qed.

(** Closes the facts of [step_facts] for a step that assigns nothing. *)
Ltac nothing_assigned := repeat split; [intros ? [] | left; reflexivity].

(** Every operation keeps the repair target, assigns only repaired values,
    and leaves as the current value either the old one or one it assigned. *)
Lemma step_facts (env : Env) (w : World) (o : Op) :
  let r := step key isValid isEqual env w o in
  repairTo (store (fst r)) = repairTo (store w) /\
  (forall v, In v (assigns (snd r)) -> isValid v = true \/ v = repairTo (store w)) /\
  (value (store (fst r)) = value (store w) \/ In (value (store (fst r))) (assigns (snd r))).
Proof.
  cbn zeta. destruct o as [next | | i | d | fn | fn]; cbn [step].
  - unfold setValue, persist. cbn zeta. destruct (isEqual _ _); unfold notify;
      cbn [fst snd store setVal repairTo value listeners app assigns].
    + nothing_assigned.
    + rewrite assigns_calls. repeat split; [| right; left; reflexivity].
      intros v [<- | []]. apply repair_good.
  - unfold hydrate. cbn zeta. destruct (hydrated _); [| destruct (negb _)];
      [| | destruct (getBroadcastChannel env)]; cbn; nothing_assigned.
  - destruct (pending w !! i) as [[safe | got |] |]; cbn [resume].
    + unfold broadcast. destruct (getBroadcastChannel env); cbn; nothing_assigned.
    + unfold hydrateLoaded, persist. cbn zeta. destruct (isEqual _ _); unfold notify;
        cbn [negb fst snd store setStore setVal repairTo value listeners app assigns];
        rewrite ?assigns_calls;
        (repeat split; [| right; left; reflexivity]);
        intros v [<- | []]; apply repair_good.
    + unfold hydrateWrittenBack, notify. cbn [fst snd store].
      rewrite assigns_calls. nothing_assigned.
    + nothing_assigned.
  - destruct (listening w); [| nothing_assigned].
    unfold handler. destruct (negb (truthy d) || _); [nothing_assigned |].
    cbn zeta. destruct (isEqual _ _); unfold notify;
      cbn [negb fst snd store setStore setVal repairTo value listeners app assigns].
    + nothing_assigned.
    + rewrite assigns_calls. repeat split; [| right; left; reflexivity].
      intros v [<- | []]. apply repair_good.
  - destruct (existsb _ _); cbn; nothing_assigned.
  - cbn. nothing_assigned.
Qed.

Lemma run_facts (env : Env) (ops : list Op) (w : World) :
  let r := run key isValid isEqual env w ops in
  repairTo (store (fst r)) = repairTo (store w) /\
  (forall v, In v (assigns (snd r)) -> isValid v = true \/ v = repairTo (store w)) /\
  (value (store (fst r)) = value (store w) \/ In (value (store (fst r))) (assigns (snd r))).
Proof.
  cbn zeta. revert w. induction ops as [| o ops IH]; intros w.
  - rewrite run_nil. cbn. repeat split; [intros v [] | left; reflexivity].
  - rewrite run_cons. cbn [fst snd].
    destruct (step_facts env w o) as (Hr & Ha & Hv).
    destruct (IH (fst (step key isValid isEqual env w o))) as (Hr' & Ha' & Hv').
    rewrite assigns_app. repeat split.
    + rewrite Hr'. exact Hr.
    + intros v Hin. apply in_app_or in Hin. destruct Hin as [Hin | Hin].
      * apply Ha, Hin.
      * rewrite <- Hr. apply Ha', Hin.
    + destruct Hv' as [Hv' | Hv'].
      * rewrite Hv'. destruct Hv as [Hv | Hv]; [left; exact Hv |].
        right. apply in_or_app. left. exact Hv.
      * right. apply in_or_app. right. exact Hv'.
Qed.

(** C7, as amended: for a record whose validation rejects [undefined] and
    whose repair target is not [undefined], no sequence of operations assigns
    the hydrating sentinel, every value assigned passes validation or is the
    repair target, and a value that has left the sentinel stays away from
    it. *)
Theorem value_leaves_sentinel_for_good (env : Env) (w : World) (ops : list Op) :
  isValid JUndefined = false ->
  repairTo (store w) <> JUndefined ->
  let r := run key isValid isEqual env w ops in
  (forall v, In v (assigns (snd r)) ->
     v <> JUndefined /\ (isValid v = true \/ v = repairTo (store w))) /\
  (value (store w) <> JUndefined -> value (store (fst r)) <> JUndefined).
Proof.
  intros Hu Hrt. cbn zeta.
  destruct (run_facts env ops w) as (_ & Ha & Hv).
  assert (Hne : forall v,
             In v (assigns (snd (run key isValid isEqual env w ops))) -> v <> JUndefined).
  { intros v Hin ->. destruct (Ha _ Hin) as [H | H]; [congruence |].
    apply Hrt. symmetry. exact H. }
  split.
  - intros v Hin. split; [apply Hne, Hin | apply Ha, Hin].
  - intros Hw. destruct Hv as [Hv | Hv]; [rewrite Hv; exact Hw | apply Hne, Hv].
Qed.

(** Without the condition on [undefined], every value assigned still passes
    validation or is the repair target. *)
Lemma assigned_values_are_repaired (env : Env) (w : World) (ops : list Op) (v : JsVal) :
  In v (assigns (snd (run key isValid isEqual env w ops))) ->
  isValid v = true \/ v = repairTo (store w).
Proof. intros H. apply (run_facts env ops w), H. Qed.

(** C7, as the specification has it, fails: under a schema that accepts
    [undefined], [setValue(undefined)] puts a ready record back to the
    sentinel. *)
Lemma setValue_undefined_returns_to_sentinel :
  let w := mkWorld (mkStore (JStr "a") JNull true []) emptyIdb [] true in
  let r := run "note" (Hook.isValid anySchema) settingsEqual browser w [OSetValue JUndefined] in
  value (store w) <> JUndefined /\
  value (store (fst r)) = JUndefined /\
  assigns (snd r) = [JUndefined].
Proof.
  cbn zeta. split; [discriminate |]. vm_compute. split; reflexivity.
Qed.

(** ** hydrate() *)

(** On a server, nothing but [setValue] touches a record that has no parked
    task and no message handler. *)
Lemma server_step_inert (channel : bool) (w : World) (o : Op) :
  isSetValue o = false -> pending w = [] -> listening w = false ->
  let r := step key isValid isEqual (mkEnv false channel) w o in
  snd r = [] /\ value (store (fst r)) = value (store w) /\
  pending (fst r) = [] /\ listening (fst r) = false.
Proof.
  intros Ho Hp Hl. cbn zeta. destruct o as [next | | i | d | fn | fn]; cbn [step].
  - discriminate.
  - unfold hydrate. cbn zeta. destruct (hydrated _); cbn; repeat split; assumption.
  - rewrite Hp. cbn. repeat split; assumption.
  - rewrite Hl. repeat split; assumption.
  - destruct (existsb _ _); cbn; repeat split; assumption.
  - cbn. repeat split; assumption.
Qed.

Lemma server_run_inert (channel : bool) (ops : list Op) (w : World) :
  forallb (fun o => negb (isSetValue o)) ops = true ->
  pending w = [] -> listening w = false ->
  let r := run key isValid isEqual (mkEnv false channel) w ops in
  snd r = [] /\ value (store (fst r)) = value (store w) /\ pending (fst r) = [].
Proof.
  cbn zeta. revert w. induction ops as [| o ops IH]; intros w Hops Hp Hl.
  - rewrite run_nil. repeat split; try reflexivity. exact Hp.
  - cbn [forallb] in Hops. apply andb_true_iff in Hops. destruct Hops as [Ho Hops].
    apply negb_true_iff in Ho.
    destruct (server_step_inert channel w o Ho Hp Hl) as (Ht & Hv & Hp' & Hl').
    destruct (IH _ Hops Hp' Hl') as (Ht' & Hv' & Hp'').
    rewrite run_cons. cbn [fst snd]. rewrite Ht, Ht', Hv', Hv.
    repeat split; try reflexivity. exact Hp''.
Qed.

(** C9: [hydrate()] always leaves the [hydrated] flag set, and a call that
    finds it set does nothing, so a second call is a no-op.  Where there is
    no [window], the first call sets the flag and does nothing else: no event,
    no parked task, no message handler; from a fresh record, no later
    [hydrate()], resumption, message or listener change moves the value off
    the sentinel. *)
Theorem hydrate_idempotent (env : Env) (w : World) :
  hydrated (store (fst (hydrate key env w))) = true /\
  (hydrated (store w) = true -> hydrate key env w = (w, [])) /\
  hydrate key env (fst (hydrate key env w)) = (fst (hydrate key env w), []) /\
  (forall channel, hydrated (store w) = false ->
     hydrate key (mkEnv false channel) w = (setStore w (setHydrated (store w)), [])) /\
  (forall channel initial d ops,
     forallb (fun o => negb (isSetValue o)) ops = true ->
     let r := run key isValid isEqual (mkEnv false channel) (freshWorld initial d)
                  (OHydrate :: ops) in
     value (store (fst r)) = JUndefined /\ snd r = [] /\ pending (fst r) = []).
Proof.
  assert (Hset : hydrated (store (fst (hydrate key env w))) = true).
  { unfold hydrate. cbn zeta. destruct (hydrated (store w)) eqn:Hh; [exact Hh |].
    destruct (negb _); [reflexivity |]. destruct (getBroadcastChannel env); reflexivity. }
  assert (Hnoop : forall w', hydrated (store w') = true -> hydrate key env w' = (w', [])).
  { intros w' Hh. unfold hydrate. cbn zeta. rewrite Hh. reflexivity. }
  split; [exact Hset |]. split; [apply Hnoop |]. split; [apply Hnoop, Hset |]. split.
  - intros channel Hh. unfold hydrate. cbn zeta. rewrite Hh. reflexivity.
  - intros channel initial d ops Hops. cbn zeta.
    destruct (server_run_inert channel (OHydrate :: ops) (freshWorld initial d))
      as (Ht & Hv & Hp); try reflexivity.
    { cbn [forallb isSetValue negb andb]. exact Hops. }
    repeat split; assumption.
Qed.

(** C10: when the read of [hydrate] delivers, the validated value is
    assigned whatever the current value is: the assignment is the first thing
    that happens and the value assigned does not depend on the current one.
    All listeners are then notified, with no comparison against the previous
    value: at once when nothing is written back, and otherwise by the parked
    remainder of the task, which does nothing but notify. *)
Theorem hydrate_load_overwrites (w : World) (got : JsVal) :
  let s := store w in
  let persisted := nullish got (repairTo s) in
  let finalVal := repair isValid s persisted in
  let r := hydrateLoaded key isValid isEqual w got in
  value (store (fst r)) = finalVal /\
  hd_error (snd r) = Some (EvAssign finalVal) /\
  (forall current,
     value (store (fst (hydrateLoaded key isValid isEqual
                          (setStore w (setVal s current)) got))) = finalVal) /\
  (if isEqual persisted finalVal
   then calls (snd r) = listeners s
   else pending (fst r) = pending w ++ [TWrittenBack] /\
        forall env w', resume key isValid isEqual env w' TWrittenBack
                       = (w', map EvCall (listeners (store w')))).
Proof.
  cbn zeta. unfold hydrateLoaded, persist. cbn zeta.
  cbn [store setStore setVal repairTo].
  destruct (isEqual _ _); unfold notify;
    cbn [negb fst snd store setStore setVal value listeners pending app hd_error calls].
  - rewrite calls_calls. repeat split; try reflexivity.
    intros current. destruct (isEqual _ _); reflexivity.
  - repeat split; try reflexivity.
    intros current. destruct (isEqual _ _); reflexivity.
Qed.

End StoreFacts.

(** With the hook's [isEqual], hydrating a key that the durable store does
    not hold writes nothing back, whatever the schema and the initial value,
    [NaN] apart. *)
Lemma hydration_of_missing_key_never_writes (deepEqual : JsVal -> JsVal -> bool)
    (key : string) (isValid : JsVal -> bool) (channel : bool) (initial : JsVal) (d : Idb) :
  initial <> JNum NaN ->
  cells d !! key = None ->
  persists (snd (run key isValid (Hook.isEqual deepEqual) (mkEnv true channel)
                   (freshWorld initial d) [OHydrate; OResume 0; OResume 0])) = [].
Proof.
  intros Hnan Hmiss.
  destruct (hydration_run key isValid (Hook.isEqual deepEqual) channel initial d)
    as (_ & _ & Hw).
  rewrite Hw, (idbGet_missing d key Hmiss). cbn [nullish].
  destruct (isValid initial); rewrite isEqual_refl by exact Hnan; reflexivity.
Qed.

(** A value set while the load is in flight is overwritten when the load
    delivers: the store held [{fontSize: 12}], [setValue({fontSize: 20})] ran
    after [hydrate()] and before the read delivered, and the record ends with
    [{fontSize: 12}] while the durable store holds [{fontSize: 20}]. *)
Example hydration_overwrites_value_set_in_flight :
  let d := mkIdb true false {[ "settings" := fontSize 5 12 ]} in
  let r := run "settings" settingsValid settingsEqual browser
               (freshWorld (fontSize 1 16) d)
               [OHydrate; OSetValue (fontSize 2 20); OResume 0; OResume 0] in
  value (store (fst r)) = fontSize 5 12 /\
  assigns (snd r) = [fontSize 2 20; fontSize 5 12] /\
  idbGet (idb (fst r)) "settings" = fontSize 2 20.
Proof.
  vm_compute. repeat split; reflexivity.
Qed.

(** The listeners are notified by the load even when it assigns the value
    the record already holds. *)
Example hydration_notifies_on_equal_value :
  let w := mkWorld (mkStore (fontSize 1 16) (fontSize 1 16) true [7]) emptyIdb [] true in
  let r := hydrateLoaded "settings" settingsValid settingsEqual w JUndefined in
  value (store (fst r)) = value (store w) /\ calls (snd r) = [7].
Proof.
  vm_compute. split; reflexivity.
Qed.

(** ** Instances *)

Lemma setValue_order_witness :
  settingsEqual (value (store readyWorld))
    (repair settingsValid (store readyWorld) (fontSize 2 20)) = false /\
  notifiedBeforePost
    (snd (setValue "settings" settingsValid settingsEqual readyWorld (fontSize 2 20))
       ++ snd (resume "settings" settingsValid settingsEqual browser
                 (fst (setValue "settings" settingsValid settingsEqual readyWorld (fontSize 2 20)))
                 (TBroadcast (repair settingsValid (store readyWorld) (fontSize 2 20))))) = true.
Proof.
  split; [reflexivity |].
  apply (setValue_order "settings" settingsValid settingsEqual browser readyWorld (fontSize 2 20)).
  reflexivity.
Defined.


Lemma value_leaves_sentinel_for_good_witness :
  settingsValid JUndefined = false /\
  repairTo (store readyWorld) <> JUndefined /\
  value (store (fst (run "settings" settingsValid settingsEqual browser readyWorld
                       [OSetValue (fontSize 2 20); OMessage (JObj 9 [("key", JStr "settings")]);
                        OSetValue JNull; OResume 0]))) <> JUndefined.
Proof.
  split; [reflexivity |]. split; [discriminate |].
  apply (value_leaves_sentinel_for_good "settings" settingsValid settingsEqual browser readyWorld);
    [reflexivity | discriminate | discriminate].
Defined.

(** * More of the registry *)

(** [getStore] only ever appends to the heap. *)
Lemma request_heap_keeps (r : Registry) (q : Request) (i : nat) (obj : StoreObj) :
  heap r !! i = Some obj -> heap (snd (request r q)) !! i = Some obj.
Proof.
  intros H. unfold request, getStore. cbn zeta.
  destruct (stores r !! regKey _ _); cbn [snd heap]; [assumption |].
  apply lookup_app_l_Some, H.
Qed.

Lemma serve_heap_keeps (qs : list Request) (r : Registry) (i : nat) (obj : StoreObj) :
  heap r !! i = Some obj -> heap (serve r qs) !! i = Some obj.
Proof.
  revert r. induction qs as [| q qs IH]; intros r H; cbn; [assumption |].
  apply IH, request_heap_keeps, H.
Qed.

(** A request for a key the registry does not name creates the record from
    the request's own arguments. *)
Lemma request_creates (r : Registry) (q : Request) :
  stores r !! requestKey q = None ->
  heap (snd (request r q)) !! fst (request r q) =
    Some (mkObj (qKey q) (default (mkNs None None) (qNs q)) (qIsValid q) (qIsEqual q)
            (freshStore (qInitial q))).
Proof.
  unfold request, requestKey, getStore. cbn zeta. intros ->. cbn [fst snd heap].
  rewrite lookup_app_r by lia. rewrite Nat.sub_diag. reflexivity.
Qed.

Lemma same_identity_same_record_witness :
  let q := mkRequest "settings" JNull settingsValid settingsEqual None in
  let q' := mkRequest "settings" (fontSize 1 16) settingsValid settingsEqual
              (Some (mkNs (Some "local-db") None)) in
  requestIdentity q = requestIdentity q' /\
  fst (request emptyRegistry q) = fst (request (serve (snd (request emptyRegistry q)) []) q').
Proof.
  split; [reflexivity |].
  apply (same_identity_same_record [] []). reflexivity.
Defined.

Lemma distinct_identity_distinct_record_witness :
  let q := mkRequest "settings" JNull settingsValid settingsEqual None in
  let q' := mkRequest "draft" JNull settingsValid settingsEqual None in
  requestIdentity q <> requestIdentity q' /\
  fst (request emptyRegistry q) <> fst (request (serve (snd (request emptyRegistry q)) []) q').
Proof.
  split; [discriminate |].
  apply (distinct_identity_distinct_record [] []); try reflexivity. discriminate.
Defined.

(** X3: First writer wins: once a record exists for a registry key, a request
    for that key changes nothing in the registry, whatever initial value and
    predicates it brings, and the record it is handed still carries the key,
    namespace, predicates and initial value of the request that created it. *)
Theorem getStore_first_writer_wins (before between : list Request) (q1 q2 : Request) :
  requestKey q1 = requestKey q2 ->
  let r0 := serve emptyRegistry before in
  let r2 := serve (snd (request r0 q1)) between in
  snd (request r2 q2) = r2 /\
  (stores r0 !! requestKey q1 = None ->
   heap r2 !! fst (request r2 q2) =
     Some (mkObj (qKey q1) (default (mkNs None None) (qNs q1)) (qIsValid q1) (qIsEqual q1)
             (freshStore (qInitial q1)))).
Proof.
  intros Hk. cbn zeta.
  set (r0 := serve emptyRegistry before).
  set (r2 := serve (snd (request r0 q1)) between).
  assert (Hreg : stores r2 !! requestKey q2 = Some (fst (request r0 q1))).
  { rewrite <- Hk. apply serve_keeps, request_registers. }
  assert (Hsame : request r2 q2 = (fst (request r0 q1), r2)).
  { unfold request, getStore. cbn zeta. fold (requestKey q2). rewrite Hreg. reflexivity. }
  rewrite Hsame. cbn [fst snd]. split; [reflexivity |].
  intros Hnew. apply serve_heap_keeps, request_creates, Hnew.
Qed.

Lemma getStore_first_writer_wins_witness :
  let q1 := mkRequest "settings" (fontSize 1 16) settingsValid settingsEqual None in
  let q2 := mkRequest "settings" JNull (Hook.isValid anySchema) (fun _ _ => false) None in
  requestKey q1 = requestKey q2 /\
  snd (request (serve (snd (request emptyRegistry q1)) []) q2)
    = serve (snd (request emptyRegistry q1)) [].
Proof.
  split; [reflexivity |].
  apply (getStore_first_writer_wins [] []). reflexivity.
Defined.

Lemma registered_invariant (qs : list Request) (r : Registry) :
  size (stores r) = length (heap r) ->
  (forall i obj, heap r !! i = Some obj -> stores r !! regKey (oKey obj) (oNs obj) = Some i) ->
  size (stores (serve r qs)) = length (heap (serve r qs)) /\
  (forall i obj, heap (serve r qs) !! i = Some obj ->
     stores (serve r qs) !! regKey (oKey obj) (oNs obj) = Some i).
Proof.
  revert r. induction qs as [| q qs IH]; intros r Hsize Hreg; cbn [serve].
  - split; assumption.
  - apply IH; unfold request, getStore; cbn zeta;
      destruct (stores r !! regKey (qKey q) _) as [ref |] eqn:Hk; cbn [snd stores heap];
      try assumption.
    + rewrite map_size_insert_None by exact Hk. rewrite length_app. cbn. lia.
    + intros i obj Hi. apply lookup_app_Some in Hi. destruct Hi as [Hi | [Hge Hi]].
      * rewrite lookup_insert_ne; [apply Hreg, Hi |].
        intros Heq. rewrite Heq, (Hreg _ _ Hi) in Hk. discriminate.
      * destruct (i - length (heap r)) eqn:Hd; cbn in Hi; [| discriminate].
        injection Hi as <-. cbn [oKey oNs]. rewrite lookup_insert_eq. f_equal. lia.
Qed.

(** X4: The registry after any series of requests holds as many records as
    registry keys, no record is named by two keys, and every record is named
    by the registry key of the key and namespace its closures captured. *)
Theorem registry_one_record_per_key (qs : list Request) :
  let r := serve emptyRegistry qs in
  size (stores r) = length (heap r) /\
  (forall k1 k2 ref, stores r !! k1 = Some ref -> stores r !! k2 = Some ref -> k1 = k2) /\
  (forall i obj, heap r !! i = Some obj -> stores r !! regKey (oKey obj) (oNs obj) = Some i).
Proof.
  cbn zeta.
  destruct (registered_invariant qs emptyRegistry) as [Hs Hr].
  { reflexivity. }
  { intros i obj H. cbn in H. discriminate. }
  split; [exact Hs |]. split; [| exact Hr].
  apply (serve_wellFormed qs emptyRegistry wellFormed_empty).
Qed.

(** * More of the durable store driver *)

Lemma strictEq_null (v : JsVal) : strictEq v JNull = true <-> v = JNull.
Proof.
  destruct v as [| | x | [| x] | x | r fa | r xs]; cbn; split; congruence.
Qed.

(** X5: Round trip: on a usable store, what [idbGet] reads under a key has
    the content of what [idbSet] wrote there, and a key written with [null]
    reads as [undefined], the key being deleted.  The read is a structured
    clone of the value written: the two agree in content, and nothing is
    said of their identity. *)
Theorem idbSet_then_idbGet (d : Idb) (key : string) (v : JsVal) :
  hasIndexedDB d = true -> rejects d = false ->
  content (idbGet (idbSet d key v) key)
    = content (if strictEq v JNull then JUndefined else v).
Proof.
  intros Hh Hr. rewrite (idbGet_idbSet_usable d key v Hh Hr). reflexivity.
Qed.

Lemma idbSet_then_idbGet_witness :
  content (idbGet (idbSet emptyIdb "settings" (fontSize 1 20)) "settings")
    = content (fontSize 7 20).
Proof.
  apply (idbSet_then_idbGet emptyIdb "settings" (fontSize 1 20)); reflexivity.
Defined.

(** X6: [idbSet] on one key leaves what every other key reads as. *)
Theorem idbSet_other_key (d : Idb) (key other : string) (v : JsVal) :
  key <> other -> idbGet (idbSet d key v) other = idbGet d other.
Proof.
  intros Hne. unfold idbGet, idbSet, getOrCreateIdbStore.
  destruct (hasIndexedDB d) eqn:Hh; [| rewrite ?Hh; reflexivity].
  destruct (rejects d) eqn:Hr; [rewrite ?Hh, ?Hr; reflexivity |].
  destruct (strictEq v JNull); cbn [hasIndexedDB rejects cells]; rewrite ?Hh.
  - rewrite lookup_delete_ne by exact Hne. reflexivity.
  - rewrite lookup_insert_ne by exact Hne. reflexivity.
Qed.

Lemma idbSet_other_key_witness :
  idbGet (idbSet (idbSet emptyIdb "a" (JStr "x")) "b" JNull) "a" = JStr "x".
Proof.
  rewrite (idbSet_other_key (idbSet emptyIdb "a" (JStr "x")) "b" "a" JNull); [reflexivity |].
  discriminate.
Defined.

(** X7: A store that cannot be opened, or whose requests fail, swallows every
    write and reads every key as [undefined]. *)
Theorem idb_unusable (d : Idb) (key other : string) (v : JsVal) :
  hasIndexedDB d = false \/ rejects d = true ->
  idbSet d key v = d /\ idbGet (idbSet d key v) other = JUndefined.
Proof.
  intros H. unfold idbGet, idbSet, getOrCreateIdbStore.
  destruct (hasIndexedDB d) eqn:Hh.
  - destruct H as [H | H]; [discriminate |]. rewrite ?H, ?Hh. split; reflexivity.
  - rewrite ?Hh. split; reflexivity.
Qed.

Lemma idb_unusable_witness :
  idbGet (idbSet (mkIdb false false ∅) "settings" (fontSize 1 20)) "settings" = JUndefined.
Proof.
  apply (idb_unusable (mkIdb false false ∅) "settings" "settings" (fontSize 1 20)).
  left. reflexivity.
Defined.

(** X8: [null] is never stored: if no key reads as [null], none does after an
    [idbSet], whatever was written. *)
Theorem idbSet_never_stores_null (d : Idb) (key other : string) (v : JsVal) :
  (forall k, idbGet d k <> JNull) -> idbGet (idbSet d key v) other <> JNull.
Proof.
  intros Hd. generalize (Hd other). unfold idbGet, idbSet, getOrCreateIdbStore.
  destruct (hasIndexedDB d) eqn:Hh; [| rewrite ?Hh; discriminate].
  destruct (rejects d) eqn:Hr; [rewrite ?Hh, ?Hr; discriminate |].
  destruct (strictEq v JNull) eqn:Hv; cbn [hasIndexedDB rejects cells]; rewrite ?Hh.
  - destruct (decide (key = other)) as [-> | Hne].
    + rewrite lookup_delete_eq. discriminate.
    + rewrite lookup_delete_ne by exact Hne. tauto.
  - destruct (decide (key = other)) as [-> | Hne].
    + rewrite lookup_insert_eq. cbn. intros _ ->. discriminate.
    + rewrite lookup_insert_ne by exact Hne. tauto.
Qed.

Lemma idbSet_never_stores_null_witness :
  idbGet (idbSet emptyIdb "settings" JNull) "settings" <> JNull.
Proof.
  apply (idbSet_never_stores_null emptyIdb "settings" "settings" JNull).
  intros k. vm_compute. discriminate.
Defined.

(** * The cache of store handles *)

Lemma idbCache_call_keeps (cache : gmap string (option IdbCache.UseStore)) (c : IdbCache.Call)
    (k : string) (e : option IdbCache.UseStore) :
  cache !! k = Some e -> snd (IdbCache.call cache c) !! k = Some e.
Proof.
  intros H. unfold IdbCache.call, IdbCache.getOrCreateIdbStore.
  destruct (negb _); [exact H |]. cbn zeta.
  destruct (cache !! IdbCache.keyFor _ _) as [cached |] eqn:Hk; [exact H |].
  assert (Hne : IdbCache.keyFor (default DEFAULT_DB (IdbCache.cDb c))
                  (default DEFAULT_STORE (IdbCache.cStore c)) <> k).
  { intros Heq. rewrite Heq in Hk. congruence. }
  destruct (IdbCache.cCreates c); cbn [snd]; rewrite lookup_insert_ne by exact Hne; exact H.
Qed.

Lemma idbCache_after_keeps (cs : list IdbCache.Call)
    (cache : gmap string (option IdbCache.UseStore)) (k : string) (e : option IdbCache.UseStore) :
  cache !! k = Some e -> IdbCache.after cache cs !! k = Some e.
Proof.
  revert cache. induction cs as [| c cs IH]; intros cache H; cbn; [exact H |].
  apply IH, idbCache_call_keeps, H.
Qed.

(** Where [indexedDB] is defined, a call leaves its own result in the cache. *)
Lemma idbCache_call_caches (cache : gmap string (option IdbCache.UseStore)) (c : IdbCache.Call) :
  IdbCache.cDefined c = true ->
  snd (IdbCache.call cache c) !! IdbCache.keyFor (IdbCache.callDb c) (IdbCache.callStore c)
    = Some (fst (IdbCache.call cache c)).
Proof.
  intros Hd. unfold IdbCache.call, IdbCache.getOrCreateIdbStore, IdbCache.callDb,
    IdbCache.callStore. rewrite Hd. cbn [negb]. cbn zeta.
  destruct (cache !! IdbCache.keyFor _ _) as [cached |] eqn:Hk; [exact Hk |].
  destruct (IdbCache.cCreates c); cbn [fst snd]; apply lookup_insert_eq.
Qed.

(** X9: The first answer is final.  Once [getOrCreateIdbStore] has been
    called for a cache key with [indexedDB] defined, every later call for
    that cache key leaves the cache as it is and, with [indexedDB] defined,
    returns what that first call returned: a handle is created once, and a
    creation that failed is never tried again, even where it would now
    succeed.  A later call without [indexedDB] returns [null].  (A call
    without [indexedDB] caches nothing, so it settles nothing for later.) *)
Theorem getOrCreateIdbStore_first_answer_is_final
    (cache : gmap string (option IdbCache.UseStore)) (c c' : IdbCache.Call)
    (between : list IdbCache.Call) :
  IdbCache.cDefined c = true ->
  IdbCache.keyFor (IdbCache.callDb c) (IdbCache.callStore c)
    = IdbCache.keyFor (IdbCache.callDb c') (IdbCache.callStore c') ->
  let first := IdbCache.call cache c in
  let later := IdbCache.after (snd first) between in
  IdbCache.call later c' = (if IdbCache.cDefined c' then fst first else None, later).
Proof.
  intros Hd Hk. cbn zeta.
  pose proof (idbCache_after_keeps between _ _ _ (idbCache_call_caches cache c Hd)) as Hhit.
  rewrite Hk in Hhit. unfold IdbCache.callDb, IdbCache.callStore in Hhit.
  unfold IdbCache.call at 1. unfold IdbCache.getOrCreateIdbStore.
  destruct (IdbCache.cDefined c'); cbn [negb]; [| reflexivity].
  cbn zeta. rewrite Hhit. reflexivity.
Qed.

Lemma getOrCreateIdbStore_first_answer_is_final_witness :
  let failed := IdbCache.mkCall true false (Some "app") None in
  let again := IdbCache.mkCall true true (Some "app") (Some "local-db") in
  fst (IdbCache.call ∅ failed) = None /\
  IdbCache.call (IdbCache.after (snd (IdbCache.call ∅ failed)) []) again
    = (if IdbCache.cDefined again then fst (IdbCache.call ∅ failed) else None,
       IdbCache.after (snd (IdbCache.call ∅ failed)) []).
Proof.
  cbn zeta. split; [reflexivity |].
  apply (getOrCreateIdbStore_first_answer_is_final ∅
           (IdbCache.mkCall true false (Some "app") None)
           (IdbCache.mkCall true true (Some "app") (Some "local-db")) []);
    reflexivity.
Defined.

(** Without [indexedDB] a call caches nothing: a later call with
    [indexedDB] defined creates the handle. *)
Example getOrCreateIdbStore_undefined_settles_nothing :
  let early := IdbCache.mkCall false true (Some "app") None in
  let later := IdbCache.mkCall true true (Some "app") None in
  fst (IdbCache.call ∅ early) = None /\
  fst (IdbCache.call (snd (IdbCache.call ∅ early)) later)
    = Some (IdbCache.mkUseStore "app" "local-db").
Proof.
  vm_compute. split; reflexivity.
Qed.

Lemma idbCacheOwn_call (cache : gmap string (option IdbCache.UseStore)) (c : IdbCache.Call) :
  occurs "/"%char (IdbCache.callDb c) = false ->
  idbCacheOwn cache -> idbCacheOwn (snd (IdbCache.call cache c)).
Proof.
  intros Hc Hown. unfold IdbCache.call, IdbCache.getOrCreateIdbStore.
  destruct (negb _); [exact Hown |]. cbn zeta.
  fold (IdbCache.callDb c) (IdbCache.callStore c).
  destruct (cache !! IdbCache.keyFor _ _) as [cached |] eqn:Hk; [exact Hown |].
  destruct (IdbCache.cCreates c); cbn [snd]; intros k h;
    (destruct (decide (IdbCache.keyFor (IdbCache.callDb c) (IdbCache.callStore c) = k))
      as [<- | Hne];
     [rewrite lookup_insert_eq | rewrite lookup_insert_ne by exact Hne; apply Hown]).
  - intros [= <-]. cbn. split; [reflexivity | exact Hc].
  - discriminate.
Qed.

Lemma idbCacheOwn_after (cs : list IdbCache.Call) (cache : gmap string (option IdbCache.UseStore)) :
  Forall (fun c => occurs "/"%char (IdbCache.callDb c) = false) cs ->
  idbCacheOwn cache -> idbCacheOwn (IdbCache.after cache cs).
Proof.
  revert cache. induction cs as [| c cs IH]; intros cache Hcs Hown; cbn; [exact Hown |].
  inversion Hcs as [| ? ? Hc Hrest]; subst.
  apply IH; [exact Hrest |]. apply idbCacheOwn_call; assumption.
Qed.

(** X10: As long as no database name holds a ["/"], a call is handed the store
    of its own database and object store names, never another one's. *)
Theorem getOrCreateIdbStore_own_store (cs : list IdbCache.Call) (c : IdbCache.Call)
    (h : IdbCache.UseStore) :
  Forall (fun c0 => occurs "/"%char (IdbCache.callDb c0) = false) cs ->
  occurs "/"%char (IdbCache.callDb c) = false ->
  fst (IdbCache.call (IdbCache.after ∅ cs) c) = Some h ->
  h = IdbCache.mkUseStore (IdbCache.callDb c) (IdbCache.callStore c).
Proof.
  intros Hcs Hc.
  assert (Hown : idbCacheOwn (IdbCache.after ∅ cs)).
  { apply idbCacheOwn_after; [exact Hcs |]. intros k h0 H. rewrite lookup_empty in H.
    discriminate. }
  unfold IdbCache.call, IdbCache.getOrCreateIdbStore.
  destruct (negb _); [discriminate |]. cbn zeta.
  fold (IdbCache.callDb c) (IdbCache.callStore c).
  destruct (IdbCache.after ∅ cs !! IdbCache.keyFor _ _) as [cached |] eqn:Hk.
  - cbn [fst]. intros ->. destruct (Hown _ _ Hk) as [Heq Hslash].
    unfold IdbCache.keyFor in Heq.
    apply (append_separator_inj _ _ _ _ _ Hc Hslash) in Heq. destruct Heq as [Hdb Hst].
    destruct h as [db st]. cbn in Hdb, Hst. subst. reflexivity.
  - destruct (IdbCache.cCreates c); cbn [fst]; [intros [= <-]; reflexivity | discriminate].
Qed.

Lemma getOrCreateIdbStore_own_store_witness :
  let cs := [IdbCache.mkCall true true None None] in
  let c := IdbCache.mkCall true true (Some "editor-db") (Some "drafts") in
  fst (IdbCache.call (IdbCache.after ∅ cs) c) = Some (IdbCache.mkUseStore "editor-db" "drafts") /\
  IdbCache.mkUseStore "editor-db" "drafts"
    = IdbCache.mkUseStore (IdbCache.callDb c) (IdbCache.callStore c).
Proof.
  cbn zeta. split; [reflexivity |].
  apply (getOrCreateIdbStore_own_store [IdbCache.mkCall true true None None]
           (IdbCache.mkCall true true (Some "editor-db") (Some "drafts"))
           (IdbCache.mkUseStore "editor-db" "drafts"));
    [repeat constructor | reflexivity | reflexivity].
Defined.

(** * The cache of channels *)

Lemma bcCache_call_keeps (cache : gmap string (option string)) (c : Broadcast.Call)
    (k : string) (e : option string) :
  cache !! k = Some e -> snd (Broadcast.call cache c) !! k = Some e.
Proof.
  intros H. unfold Broadcast.call, Broadcast.getBroadcastChannel.
  destruct (negb _); [exact H |]. cbn zeta.
  destruct (cache !! Broadcast.nsKey _ _) as [cached |] eqn:Hk; [exact H |].
  assert (Hne : Broadcast.nsKey (default DEFAULT_DB (Broadcast.cOpts c ≫= dbName))
                  (default DEFAULT_STORE (Broadcast.cOpts c ≫= storeName)) <> k).
  { intros Heq. rewrite Heq in Hk. congruence. }
  destruct (Broadcast.cConstructs c); cbn [snd]; rewrite lookup_insert_ne by exact Hne; exact H.
Qed.

Lemma bcCache_after_keeps (cs : list Broadcast.Call) (cache : gmap string (option string))
    (k : string) (e : option string) :
  cache !! k = Some e -> Broadcast.after cache cs !! k = Some e.
Proof.
  revert cache. induction cs as [| c cs IH]; intros cache H; cbn; [exact H |].
  apply IH, bcCache_call_keeps, H.
Qed.

Lemma bcCache_call_caches (cache : gmap string (option string)) (c : Broadcast.Call) :
  Broadcast.cWindow c = true ->
  snd (Broadcast.call cache c) !! Broadcast.nsKey (Broadcast.callDb c) (Broadcast.callStore c)
    = Some (fst (Broadcast.call cache c)).
Proof.
  intros Hw. unfold Broadcast.call, Broadcast.getBroadcastChannel, Broadcast.callDb,
    Broadcast.callStore. rewrite Hw. cbn [negb]. cbn zeta.
  destruct (cache !! Broadcast.nsKey _ _) as [cached |] eqn:Hk; [exact Hk |].
  destruct (Broadcast.cConstructs c); cbn [fst snd]; apply lookup_insert_eq.
Qed.

(** X11: One channel per namespace key, for good.  Once [getBroadcastChannel]
    has been called for a namespace key in a window, every later call for
    that key in a window returns what the first returned and leaves the
    cache as it is: all records of a namespace share one channel object, and
    a construction that failed is never tried again.  Without a window a
    call returns [null] and leaves the cache alone. *)
Theorem getBroadcastChannel_first_answer_is_final
    (cache : gmap string (option string)) (c c' : Broadcast.Call) (between : list Broadcast.Call) :
  Broadcast.cWindow c = true ->
  Broadcast.nsKey (Broadcast.callDb c) (Broadcast.callStore c)
    = Broadcast.nsKey (Broadcast.callDb c') (Broadcast.callStore c') ->
  let first := Broadcast.call cache c in
  let later := Broadcast.after (snd first) between in
  Broadcast.call later c' = (if Broadcast.cWindow c' then fst first else None, later).
Proof.
  intros Hw Hk. cbn zeta.
  pose proof (bcCache_after_keeps between _ _ _ (bcCache_call_caches cache c Hw)) as Hhit.
  rewrite Hk in Hhit. unfold Broadcast.callDb, Broadcast.callStore in Hhit.
  unfold Broadcast.call at 1. unfold Broadcast.getBroadcastChannel.
  destruct (Broadcast.cWindow c'); cbn [negb]; [| reflexivity].
  cbn zeta. rewrite Hhit. reflexivity.
Qed.

Lemma getBroadcastChannel_first_answer_is_final_witness :
  let c := Broadcast.mkCall true false None in
  let c' := Broadcast.mkCall true true (Some (mkNs (Some "local-db") None)) in
  fst (Broadcast.call ∅ c) = None /\
  Broadcast.call (Broadcast.after (snd (Broadcast.call ∅ c)) []) c'
    = (if Broadcast.cWindow c' then fst (Broadcast.call ∅ c) else None,
       Broadcast.after (snd (Broadcast.call ∅ c)) []).
Proof.
  cbn zeta. split; [reflexivity |].
  apply (getBroadcastChannel_first_answer_is_final ∅ (Broadcast.mkCall true false None)
           (Broadcast.mkCall true true (Some (mkNs (Some "local-db") None))) []);
    reflexivity.
Defined.

Lemma channelName_inj (db db' st st' : string) :
  occurs ":"%char db = false -> occurs ":"%char db' = false ->
  Broadcast.channelName db st = Broadcast.channelName db' st' -> db = db' /\ st = st'.
Proof.
  intros Hd Hd' H. unfold Broadcast.channelName in H. cbn [String.append] in H.
  injection H as H. exact (append_separator_inj _ _ _ _ _ Hd Hd' H).
Qed.

Lemma bcCacheOwn_call (cache : gmap string (option string)) (c : Broadcast.Call) :
  occurs "/"%char (Broadcast.callDb c) = false ->
  bcCacheOwn cache -> bcCacheOwn (snd (Broadcast.call cache c)).
Proof.
  intros Hc Hown. unfold Broadcast.call, Broadcast.getBroadcastChannel.
  destruct (negb _); [exact Hown |]. cbn zeta.
  fold (Broadcast.callDb c) (Broadcast.callStore c).
  destruct (cache !! Broadcast.nsKey _ _) as [cached |] eqn:Hk; [exact Hown |].
  destruct (Broadcast.cConstructs c); cbn [snd]; intros k n;
    (destruct (decide (Broadcast.nsKey (Broadcast.callDb c) (Broadcast.callStore c) = k))
      as [<- | Hne];
     [rewrite lookup_insert_eq | rewrite lookup_insert_ne by exact Hne; apply Hown]).
  - intros [= <-]. exists (Broadcast.callDb c), (Broadcast.callStore c).
    split; [reflexivity |]. split; [reflexivity | exact Hc].
  - discriminate.
Qed.

Lemma bcCacheOwn_after (cs : list Broadcast.Call) (cache : gmap string (option string)) :
  Forall (fun c => occurs "/"%char (Broadcast.callDb c) = false) cs ->
  bcCacheOwn cache -> bcCacheOwn (Broadcast.after cache cs).
Proof.
  revert cache. induction cs as [| c cs IH]; intros cache Hcs Hown; cbn; [exact Hown |].
  inversion Hcs as [| ? ? Hc Hrest]; subst.
  apply IH; [exact Hrest |]. apply bcCacheOwn_call; assumption.
Qed.

(** With database names free of ["/"], the channel a call is handed bears
    the name of the call's own namespace. *)
Lemma getBroadcastChannel_own_name (cs : list Broadcast.Call) (c : Broadcast.Call) (n : string) :
  Forall (fun c0 => occurs "/"%char (Broadcast.callDb c0) = false) cs ->
  occurs "/"%char (Broadcast.callDb c) = false ->
  fst (Broadcast.call (Broadcast.after ∅ cs) c) = Some n ->
  n = Broadcast.channelName (Broadcast.callDb c) (Broadcast.callStore c).
Proof.
  intros Hcs Hc.
  assert (Hown : bcCacheOwn (Broadcast.after ∅ cs)).
  { apply bcCacheOwn_after; [exact Hcs |]. intros k n0 H. rewrite lookup_empty in H.
    discriminate. }
  unfold Broadcast.call, Broadcast.getBroadcastChannel.
  destruct (negb _); [discriminate |]. cbn zeta.
  fold (Broadcast.callDb c) (Broadcast.callStore c).
  destruct (Broadcast.after ∅ cs !! Broadcast.nsKey _ _) as [cached |] eqn:Hk.
  - cbn [fst]. intros ->. destruct (Hown _ _ Hk) as (db & st & Heq & -> & Hslash).
    unfold Broadcast.nsKey in Heq.
    apply (append_separator_inj _ _ _ _ _ Hc Hslash) in Heq. destruct Heq as [-> ->].
    reflexivity.
  - destruct (Broadcast.cConstructs c); cbn [fst]; [intros [= <-]; reflexivity | discriminate].
Qed.

(** X12: Isolation of namespaces: as long as no database name holds a ["/"] or
    a [":"], calls for different (database, object store) pairs are handed
    channels of different names, so that neither hears the other. *)
Theorem channels_of_distinct_namespaces_differ (cs between : list Broadcast.Call)
    (c1 c2 : Broadcast.Call) (n1 n2 : string) :
  Forall (fun c0 => occurs "/"%char (Broadcast.callDb c0) = false) (cs ++ c1 :: between) ->
  occurs "/"%char (Broadcast.callDb c2) = false ->
  occurs ":"%char (Broadcast.callDb c1) = false ->
  occurs ":"%char (Broadcast.callDb c2) = false ->
  (Broadcast.callDb c1, Broadcast.callStore c1) <> (Broadcast.callDb c2, Broadcast.callStore c2) ->
  fst (Broadcast.call (Broadcast.after ∅ cs) c1) = Some n1 ->
  fst (Broadcast.call (Broadcast.after ∅ (cs ++ c1 :: between)) c2) = Some n2 ->
  n1 <> n2.
Proof.
  intros Hall Hs2 Hc1 Hc2 Hne H1 H2 Heq.
  assert (Hcs : Forall (fun c0 => occurs "/"%char (Broadcast.callDb c0) = false) cs).
  { apply Forall_app in Hall. tauto. }
  assert (Hs1 : occurs "/"%char (Broadcast.callDb c1) = false).
  { apply Forall_app in Hall. destruct Hall as [_ Hall]. inversion Hall; assumption. }
  apply (getBroadcastChannel_own_name cs c1 n1 Hcs Hs1) in H1.
  apply (getBroadcastChannel_own_name _ c2 n2 Hall Hs2) in H2.
  subst n1 n2. apply (channelName_inj _ _ _ _ Hc1 Hc2) in Heq.
  destruct Heq as [Hdb Hst]. apply Hne. rewrite Hdb, Hst. reflexivity.
Qed.

Lemma channels_of_distinct_namespaces_differ_witness :
  let c1 := Broadcast.mkCall true true (Some (mkNs (Some "editor-db") (Some "drafts"))) in
  let c2 := Broadcast.mkCall true true (Some (mkNs (Some "editor-db") (Some "notes"))) in
  fst (Broadcast.call (Broadcast.after ∅ []) c1) = Some "local-db:editor-db:drafts" /\
  fst (Broadcast.call (Broadcast.after ∅ ([] ++ [c1])) c2) = Some "local-db:editor-db:notes" /\
  "local-db:editor-db:drafts" <> "local-db:editor-db:notes".
Proof.
  cbn zeta. split; [reflexivity |]. split; [reflexivity |].
  apply (channels_of_distinct_namespaces_differ [] []
           (Broadcast.mkCall true true (Some (mkNs (Some "editor-db") (Some "drafts"))))
           (Broadcast.mkCall true true (Some (mkNs (Some "editor-db") (Some "notes")))));
    try reflexivity; try (repeat constructor); discriminate.
Defined.

(** * More of the equality contract *)

(** X13: Unless both operands are objects or arrays, the hook's [isEqual] is
    [===] and never consults the deep comparison. *)
Theorem isEqual_on_primitives (deepEqual : JsVal -> JsVal -> bool) (a b : JsVal) :
  Hook.isComposite a && Hook.isComposite b = false ->
  Hook.isEqual deepEqual a b = strictEq a b.
Proof.
  unfold Hook.isEqual. destruct (strictEq a b) eqn:Hid; [reflexivity |].
  destruct a as [| | x | [| x] | x | r fa | r xs], b as [| | y | [| y] | y | r' fb | r' ys];
    cbn [truthy typeofObject Hook.isComposite negb orb andb];
    try discriminate; intros _;
    repeat match goal with
           | |- context [negb ?c] => destruct c; cbn [negb orb andb]
           end;
    reflexivity.
Qed.

Lemma isEqual_on_primitives_witness :
  Hook.isEqual structEq (JStr "a") (fontSize 1 16) = strictEq (JStr "a") (fontSize 1 16).
Proof.
  apply (isEqual_on_primitives structEq (JStr "a") (fontSize 1 16)). reflexivity.
Defined.

(** X14: A value equals itself under the hook's [isEqual] exactly when it is not
    [NaN]. *)
Theorem isEqual_reflexive_iff (deepEqual : JsVal -> JsVal -> bool) (a : JsVal) :
  Hook.isEqual deepEqual a a = true <-> a <> JNum NaN.
Proof.
  split.
  - intros H ->. cbn in H. discriminate.
  - intros H. unfold Hook.isEqual. rewrite (strictEq_refl a H). reflexivity.
Qed.

(** * More of the Store Record *)

Lemma loads_app (t1 t2 : list Event) : loads (t1 ++ t2) = loads t1 + loads t2.
Proof.
  induction t1 as [| [] t1 IH]; cbn; [reflexivity | ..]; rewrite ?IH; reflexivity.
Qed.

Lemma registrations_app (t1 t2 : list Event) :
  registrations (t1 ++ t2) = registrations t1 + registrations t2.
Proof.
  induction t1 as [| [] t1 IH]; cbn; [reflexivity | ..]; rewrite ?IH; reflexivity.
Qed.

Lemma calls_app (t1 t2 : list Event) : calls (t1 ++ t2) = calls t1 ++ calls t2.
Proof.
  induction t1 as [| [] t1 IH]; cbn; [reflexivity | ..]; rewrite ?IH; reflexivity.
Qed.

Lemma posts_app (t1 t2 : list Event) : posts (t1 ++ t2) = posts t1 ++ posts t2.
Proof.
  induction t1 as [| [] t1 IH]; cbn; [reflexivity | ..]; rewrite ?IH; reflexivity.
Qed.

Lemma loads_calls (l : list nat) : loads (map EvCall l) = 0.
Proof. induction l as [| fn l IH]; cbn; [reflexivity | exact IH]. Qed.

Lemma registrations_calls (l : list nat) : registrations (map EvCall l) = 0.
Proof. induction l as [| fn l IH]; cbn; [reflexivity | exact IH]. Qed.

(** Opens a step into the cases of the operation and of every test its
    code makes. *)
Ltac step_cases o :=
  destruct o as [next | | i | d | fn | fn];
  unfold step, resume, setValue, hydrate, hydrateLoaded, hydrateWrittenBack, broadcast,
    handler, persist, notify, setStore, setVal, setHydrated, setListeners;
  cbn zeta;
  repeat match goal with
         | |- context [match ?c with Some _ => _ | None => _ end] => destruct c eqn:?
         | |- context [match ?c with TBroadcast _ => _ | TLoaded _ => _ | TWrittenBack => _ end] =>
             destruct c eqn:?
         | |- context [if ?c then _ else _] => destruct c eqn:?
         end;
  cbn [fst snd store idb pending listening value repairTo hydrated listeners app
       loads registrations calls posts persists assigns].

Section StoreMore.

Context (key : string) (isValid : JsVal -> bool) (isEqual : JsVal -> JsVal -> bool).

(** What a single operation leaves alone. *)
Lemma step_frame (env : Env) (w : World) (o : Op) :
  let r := step key isValid isEqual env w o in
  (hydrated (store w) = true -> hydrated (store (fst r)) = true) /\
  (changesListeners o = false -> listeners (store (fst r)) = listeners (store w)) /\
  hasIndexedDB (idb (fst r)) = hasIndexedDB (idb w) /\
  rejects (idb (fst r)) = rejects (idb w) /\
  (forall other, key <> other -> cells (idb (fst r)) !! other = cells (idb w) !! other).
Proof.
  assert (Hset : forall d v,
            hasIndexedDB (idbSet d key v) = hasIndexedDB d /\
            rejects (idbSet d key v) = rejects d /\
            (forall other, key <> other -> cells (idbSet d key v) !! other = cells d !! other)).
  { intros d v. unfold idbSet, getOrCreateIdbStore.
    destruct (hasIndexedDB d) eqn:Hh; [| repeat split; assumption].
    destruct (rejects d) eqn:Hr; [repeat split; assumption |].
    destruct (strictEq v JNull); cbn [hasIndexedDB rejects cells]; repeat split; try assumption.
    - intros other Hne. apply lookup_delete_ne, Hne.
    - intros other Hne. apply lookup_insert_ne, Hne. }
  cbn zeta. step_cases o;
    repeat split;
    try solve [reflexivity | discriminate | intros; congruence | intros; reflexivity];
    apply Hset.
Qed.

(** A step reads the durable store and registers the message handler only
    if the record was not hydrated, and leaves it hydrated if it did. *)
Lemma step_budget (env : Env) (w : World) (o : Op) :
  let r := step key isValid isEqual env w o in
  loads (snd r) + (if hydrated (store (fst r)) then 0 else 1)
    <= (if hydrated (store w) then 0 else 1) /\
  registrations (snd r) + (if hydrated (store (fst r)) then 0 else 1)
    <= (if hydrated (store w) then 0 else 1).
Proof.
  cbn zeta. step_cases o;
    rewrite ?loads_calls, ?registrations_calls;
    cbn [fst snd store hydrated] in *;
    solve [congruence | cbn; lia].
Qed.

(** A step notifies nobody, or every listener of the record once, in order. *)
Lemma step_calls (env : Env) (w : World) (o : Op) :
  calls (snd (step key isValid isEqual env w o)) = [] \/
  calls (snd (step key isValid isEqual env w o)) = listeners (store w).
Proof.
  step_cases o; rewrite ?calls_calls; tauto.
Qed.

(** A step puts no listener into the set but the one an [OSubscribe] names. *)
Lemma step_listeners (env : Env) (w : World) (o : Op) (g : nat) :
  In g (listeners (store (fst (step key isValid isEqual env w o)))) ->
  In g (listeners (store w)) \/ subscribes g o = true.
Proof.
  step_cases o; cbn [subscribes]; try tauto.
  - intros H. apply in_app_or in H. destruct H as [H | [<- | []]]; [tauto |].
    right. apply Nat.eqb_refl.
  - intros H. apply filter_In in H. tauto.
Qed.

Lemma step_NoDup (env : Env) (w : World) (o : Op) :
  List.NoDup (listeners (store w)) ->
  List.NoDup (listeners (store (fst (step key isValid isEqual env w o)))).
Proof.
  step_cases o; try tauto.
  - intros H. apply NoDup_ListNoDup, NoDup_app. apply NoDup_ListNoDup in H.
    split; [exact H |]. split; [| apply NoDup_singleton].
    intros x Hx Hin. apply list_elem_of_In in Hx, Hin. destruct Hin as [Heq | []].
    subst x.
    assert (Hex : existsb (Nat.eqb fn) (listeners (store w)) = true).
    { apply existsb_exists. exists fn. split; [exact Hx | apply Nat.eqb_refl]. }
    congruence.
  - intros H. apply List.NoDup_filter, H.
Qed.

(** A step posts nothing but a message built from a parked value, and only
    if there is a channel. *)
Lemma step_posts (env : Env) (w : World) (o : Op) (m : JsVal) :
  In m (posts (snd (step key isValid isEqual env w o))) ->
  getBroadcastChannel env = true /\ exists safe, m = message key safe.
Proof.
  step_cases o; rewrite ?posts_calls; cbn [In]; try tauto.
  intros [<- | []]. split; [first [assumption | reflexivity] | eexists; reflexivity].
Qed.


Lemma run_frame (env : Env) (ops : list Op) (w : World) :
  let r := run key isValid isEqual env w ops in
  (hydrated (store w) = true -> hydrated (store (fst r)) = true) /\
  (existsb changesListeners ops = false -> listeners (store (fst r)) = listeners (store w)) /\
  hasIndexedDB (idb (fst r)) = hasIndexedDB (idb w) /\
  rejects (idb (fst r)) = rejects (idb w) /\
  (forall other, key <> other -> cells (idb (fst r)) !! other = cells (idb w) !! other).
Proof.
  cbn zeta. revert w. induction ops as [| o ops IH]; intros w.
  - rewrite run_nil. cbn. repeat split; tauto.
  - rewrite run_cons. cbn [fst snd existsb].
    destruct (step_frame env w o) as (Hh & Hl & Hi & Hr & Hc).
    destruct (IH (fst (step key isValid isEqual env w o))) as (Hh' & Hl' & Hi' & Hr' & Hc').
    repeat split.
    + intros H. apply Hh', Hh, H.
    + intros H. apply orb_false_iff in H. destruct H as [Ho Hops].
      rewrite (Hl' Hops). apply Hl, Ho.
    + rewrite Hi'. exact Hi.
    + rewrite Hr'. exact Hr.
    + intros other Hne. rewrite (Hc' other Hne). apply Hc, Hne.
Qed.

(** X15: What is fixed for the life of a record: the repair target never
    changes, a hydrated record stays hydrated, and the listener set changes
    only when the hook adds or removes a listener. *)
Theorem record_fields_are_stable (env : Env) (w : World) (ops : list Op) :
  let r := run key isValid isEqual env w ops in
  repairTo (store (fst r)) = repairTo (store w) /\
  (hydrated (store w) = true -> hydrated (store (fst r)) = true) /\
  (existsb changesListeners ops = false -> listeners (store (fst r)) = listeners (store w)).
Proof.
  cbn zeta. destruct (run_frame env ops w) as (Hh & Hl & _).
  destruct (run_facts key isValid isEqual env ops w) as (Hr & _).
  repeat split; assumption.
Qed.

(** X16: A record touches no key of the durable store but its own, and never
    changes whether the store is usable. *)
Theorem run_touches_own_key_only (env : Env) (w : World) (ops : list Op) (other : string) :
  key <> other ->
  idbGet (idb (fst (run key isValid isEqual env w ops))) other = idbGet (idb w) other.
Proof.
  intros Hne. destruct (run_frame env ops w) as (_ & _ & Hi & Hr & Hc).
  unfold idbGet, getOrCreateIdbStore. rewrite Hi, Hr.
  destruct (hasIndexedDB (idb w)); [| reflexivity].
  destruct (rejects (idb w)); [reflexivity |]. rewrite (Hc other Hne). reflexivity.
Qed.

Lemma run_budget (env : Env) (ops : list Op) (w : World) :
  let r := run key isValid isEqual env w ops in
  loads (snd r) + (if hydrated (store (fst r)) then 0 else 1)
    <= (if hydrated (store w) then 0 else 1) /\
  registrations (snd r) + (if hydrated (store (fst r)) then 0 else 1)
    <= (if hydrated (store w) then 0 else 1).
Proof.
  cbn zeta. revert w. induction ops as [| o ops IH]; intros w.
  - rewrite run_nil. cbn. lia.
  - rewrite run_cons. cbn [fst snd]. rewrite loads_app, registrations_app.
    pose proof (step_budget env w o) as Hs. cbn zeta in Hs.
    pose proof (IH (fst (step key isValid isEqual env w o))) as Hr. lia.
Qed.

(** X17: Whatever happens to a record, the durable store is read for hydration
    at most once and the message handler is registered at most once, and
    neither happens to a record that is already hydrated. *)
Theorem hydration_starts_at_most_once (env : Env) (w : World) (ops : list Op) :
  let tr := snd (run key isValid isEqual env w ops) in
  loads tr <= 1 /\ registrations tr <= 1 /\
  (hydrated (store w) = true -> loads tr = 0 /\ registrations tr = 0).
Proof.
  cbn zeta. pose proof (run_budget env ops w) as H. cbn zeta in H.
  destruct (hydrated (store w));
    destruct (hydrated (store (fst (run key isValid isEqual env w ops))));
    repeat split; intros; try discriminate; lia.
Qed.

Lemma run_listeners (env : Env) (ops : list Op) (w : World) (g : nat) :
  ~ In g (listeners (store w)) ->
  existsb (subscribes g) ops = false ->
  ~ In g (calls (snd (run key isValid isEqual env w ops))) /\
  ~ In g (listeners (store (fst (run key isValid isEqual env w ops)))).
Proof.
  revert w. induction ops as [| o ops IH]; intros w Hw Hops.
  - rewrite run_nil. cbn. tauto.
  - cbn [existsb] in Hops. apply orb_false_iff in Hops. destruct Hops as [Ho Hops].
    assert (Hw' : ~ In g (listeners (store (fst (step key isValid isEqual env w o))))).
    { intros H. apply step_listeners in H. destruct H as [H | H]; [tauto | congruence]. }
    destruct (IH _ Hw' Hops) as [Hc Hl].
    rewrite run_cons. cbn [fst snd]. rewrite calls_app. split; [| exact Hl].
    intros H. apply in_app_or in H. destruct H as [H | H]; [| tauto].
    destruct (step_calls env w o) as [He | He]; rewrite He in H; [destruct H | tauto].
Qed.

(** X18: A listener that is not in the set and is not added again is never
    called, whatever else happens: after [store.listeners.delete(fn)] no
    notification reaches [fn]. *)
Theorem unsubscribed_listener_is_never_called (env : Env) (w : World) (ops : list Op) (g : nat) :
  existsb (subscribes g) ops = false ->
  ~ In g (calls (snd (run key isValid isEqual env
                        (fst (step key isValid isEqual env w (OUnsubscribe g))) ops))).
Proof.
  intros Hops. apply run_listeners; [| exact Hops].
  cbn [step fst setStore store setListeners listeners]. intros H.
  apply filter_In in H. destruct H as [_ H]. rewrite Nat.eqb_refl in H. discriminate.
Qed.

Lemma run_NoDup (env : Env) (ops : list Op) (w : World) :
  List.NoDup (listeners (store w)) ->
  List.NoDup (listeners (store (fst (run key isValid isEqual env w ops)))).
Proof.
  revert w. induction ops as [| o ops IH]; intros w H.
  - rewrite run_nil. exact H.
  - rewrite run_cons. cbn [fst]. apply IH, step_NoDup, H.
Qed.

(** X19: The listener set behaves as a set: from a record whose listeners are
    distinct, and so from a fresh one, they stay distinct whatever happens,
    and an operation calls no listener twice, even one that was added
    several times. *)
Theorem listeners_are_called_once (env : Env) (w : World) (ops : list Op) (o : Op) :
  List.NoDup (listeners (store w)) ->
  let w' := fst (run key isValid isEqual env w ops) in
  List.NoDup (listeners (store w')) /\
  List.NoDup (calls (snd (step key isValid isEqual env w' o))).
Proof.
  intros H. cbn zeta. pose proof (run_NoDup env ops w H) as H'. split; [exact H' |].
  destruct (step_calls env (fst (run key isValid isEqual env w ops)) o) as [He | He];
    rewrite He; [constructor | exact H'].
Qed.

(** X20: Every message a record posts names the record's own key and flags a
    removal exactly when its value is [null]; nothing is posted where there
    is no channel. *)
Theorem posted_messages_name_the_key (env : Env) (w : World) (ops : list Op) (m : JsVal) :
  In m (posts (snd (run key isValid isEqual env w ops))) ->
  getBroadcastChannel env = true /\
  getProp m "key" = JStr key /\
  getProp m "removed" = JBool (strictEq (getProp m "value") JNull).
Proof.
  revert w. induction ops as [| o ops IH]; intros w.
  - rewrite run_nil. intros [].
  - rewrite run_cons. cbn [fst snd]. rewrite posts_app. intros H.
    apply in_app_or in H. destruct H as [H | H]; [| exact (IH _ H)].
    apply step_posts in H. destruct H as (Hc & safe & ->).
    split; [exact Hc |]. split; reflexivity.
Qed.


Lemma nullish_self (a : JsVal) : nullish a a = a.
Proof. destruct a; reflexivity. Qed.

(** Repairing twice is repairing once. *)
Lemma repair_idem (s : StoreState) (v : JsVal) :
  repair isValid s (repair isValid s v) = repair isValid s v.
Proof.
  unfold repair. destruct (isValid v) eqn:Hv; [rewrite Hv; reflexivity |].
  destruct (isValid (repairTo s)); reflexivity.
Qed.

Lemma nullish_content (a b d : JsVal) :
  content a = content b -> content (nullish a d) = content (nullish b d).
Proof.
  destruct a, b; cbn [content nullish]; intros H;
    solve [reflexivity | discriminate | exact H].
Qed.

Lemma existsb_lookup (l : list Task) (i : nat) (t : Task) :
  l !! i = Some t -> existsb isLoad l = false -> isLoad t = false.
Proof.
  revert i. induction l as [| x l IH]; intros [| i]; cbn; try discriminate.
  - intros [= ->] H. apply orb_false_iff in H. tauto.
  - intros Hi H. apply orb_false_iff in H. apply (IH i Hi). tauto.
Qed.

Lemma existsb_delete (l : list Task) (i : nat) :
  existsb isLoad l = false -> existsb isLoad (list_delete i l) = false.
Proof.
  revert i. induction l as [| x l IH]; intros [| i]; cbn [list_delete existsb]; try tauto.
  - intros H. apply orb_false_iff in H. tauto.
  - intros H. apply orb_false_iff in H. destruct H as [Hx Hl].
    apply orb_false_iff. split; [exact Hx | exact (IH i Hl)].
Qed.

(** Once a record is hydrated and no hydration read is in flight, nothing
    but [setValue] writes to the durable store. *)
Lemma step_settled (env : Env) (w : World) (o : Op) :
  hydrated (store w) = true -> existsb isLoad (pending w) = false ->
  isSetValue o = false ->
  idb (fst (step key isValid isEqual env w o)) = idb w /\
  hydrated (store (fst (step key isValid isEqual env w o))) = true /\
  existsb isLoad (pending (fst (step key isValid isEqual env w o))) = false.
Proof.
  intros Hh Hp Ho.
  assert (Hw : idb w = idb w /\ hydrated (store w) = true
               /\ existsb isLoad (pending w) = false) by (repeat split; assumption).
  destruct o as [next | | i | d | g | g]; cbn [step].
  - discriminate.
  - unfold hydrate. cbn zeta. rewrite Hh. exact Hw.
  - destruct (pending w !! i) as [t |] eqn:Hi; [| exact Hw].
    pose proof (existsb_lookup _ _ _ Hi Hp) as Ht.
    destruct t as [safe | got |]; [| discriminate |];
      cbn [resume broadcast hydrateWrittenBack fst store idb pending];
      (split; [reflexivity |]; split; [exact Hh | apply existsb_delete, Hp]).
  - destruct (listening w); [| exact Hw].
    unfold handler. destruct (negb (truthy d) || _); [exact Hw |].
    cbn zeta. destruct (negb (isEqual _ _)); [| exact Hw]. exact Hw.
  - destruct (existsb (Nat.eqb g) _); exact Hw.
  - exact Hw.
Qed.

Lemma run_settled (env : Env) (ops : list Op) (w : World) :
  hydrated (store w) = true -> existsb isLoad (pending w) = false ->
  existsb isSetValue ops = false ->
  idb (fst (run key isValid isEqual env w ops)) = idb w.
Proof.
  revert w. induction ops as [| o ops IH]; intros w Hh Hp Hops.
  - reflexivity.
  - cbn [existsb] in Hops. apply orb_false_iff in Hops. destruct Hops as [Ho Hops].
    destruct (step_settled env w o Hh Hp Ho) as (Hi & Hh' & Hp').
    rewrite run_cons. cbn [fst]. rewrite (IH _ Hh' Hp' Hops). exact Hi.
Qed.

(** X22: What is set survives a reload, once hydration is over.  Take a
    record that is hydrated with no hydration read in flight, a usable
    durable store, and a validation that looks at content only.  After a
    [setValue] that changed the state, followed by any operations other than
    [setValue], let a record of the same key and repair target load a clone
    of what the store holds.  It ends with the content of the value that was
    set; only [null] (and [undefined]) do not come back: the key was deleted,
    and the record ends with the repair target. *)
Theorem setValue_survives_reload (env : Env) (w reloaded : World) (next : JsVal)
    (ops : list Op) (got : JsVal) :
  (forall a b, content a = content b -> isValid a = isValid b) ->
  hasIndexedDB (idb w) = true -> rejects (idb w) = false ->
  hydrated (store w) = true -> existsb isLoad (pending w) = false ->
  existsb isSetValue ops = false ->
  isEqual (value (store w)) (repair isValid (store w) next) = false ->
  repairTo (store reloaded) = repairTo (store w) ->
  let safe := repair isValid (store w) next in
  let w1 := fst (setValue key isValid isEqual w next) in
  let w2 := fst (run key isValid isEqual env w1 ops) in
  content got = content (idbGet (idb w2) key) ->
  value (store w1) = safe /\
  content (value (store (fst (hydrateLoaded key isValid isEqual reloaded got))))
    = content (nullish safe (repairTo (store w))).
Proof.
  intros Hc Hh Hr Hhyd Hp Hops Hchg Hrt. cbn zeta.
  rewrite (setValue_changes key isValid isEqual w next Hchg). cbn [fst].
  rewrite run_settled; [| exact Hhyd | | exact Hops].
  2:{ cbn [pending]. rewrite existsb_app, Hp. reflexivity. }
  cbn [idb store value setVal]. rewrite (idbGet_idbSet_usable _ _ _ Hh Hr).
  intros Hgot. split; [reflexivity |].
  destruct (hydrateLoaded_spec key isValid isEqual reloaded got) as (Hs & _).
  cbn zeta in Hs. rewrite Hs, Hrt. cbn [value setVal].
  set (safe := repair isValid (store w) next) in *.
  set (rt := repairTo (store w)) in *.
  assert (Hstored : nullish (if strictEq safe JNull then JUndefined else safe) rt
                    = nullish safe rt).
  { destruct (strictEq safe JNull) eqn:Hn; [| reflexivity].
    apply strictEq_null in Hn. rewrite Hn. reflexivity. }
  pose proof (nullish_content _ _ rt Hgot) as Hn. rewrite Hstored in Hn.
  assert (Hmodel : (if isValid (nullish safe rt) then nullish safe rt else rt)
                   = nullish safe rt).
  { unfold safe, repair. destruct (isValid next) eqn:Hv.
    - destruct next; cbn [nullish]; rewrite ?Hv; try reflexivity;
        destruct (isValid rt); reflexivity.
    - rewrite nullish_self. destruct (isValid rt); reflexivity. }
  unfold repair at 1. rewrite Hrt. fold rt.
  rewrite (Hc _ _ Hn).
  destruct (isValid (nullish safe rt)) eqn:Hv.
  - exact Hn.
  - f_equal. exact Hmodel.
Qed.

(** A step leaves the durable store as it is or writes the record's key. *)
Lemma step_idb (env : Env) (w : World) (o : Op) :
  idb (fst (step key isValid isEqual env w o)) = idb w \/
  exists v, idb (fst (step key isValid isEqual env w o)) = idbSet (idb w) key v.
Proof.
  step_cases o; try tauto; right; eexists; reflexivity.
Qed.

Lemma run_idb_unusable (env : Env) (ops : list Op) (w : World) :
  hasIndexedDB (idb w) = false \/ rejects (idb w) = true ->
  idb (fst (run key isValid isEqual env w ops)) = idb w.
Proof.
  revert w. induction ops as [| o ops IH]; intros w H.
  - reflexivity.
  - rewrite run_cons. cbn [fst].
    assert (Hs : idb (fst (step key isValid isEqual env w o)) = idb w).
    { destruct (step_idb env w o) as [Hs | [v Hs]]; [exact Hs |]. rewrite Hs.
      unfold idbSet, getOrCreateIdbStore.
      destruct (hasIndexedDB (idb w)); [| reflexivity].
      destruct H as [H | H]; [discriminate |]. rewrite H. reflexivity. }
    rewrite IH; rewrite Hs; [reflexivity | exact H].
Qed.

(** X23: Without a usable durable store nothing outlives the page: whatever the
    record went through, the store is as it was, and a fresh record of the
    same key that hydrates from it ends with its initial value. *)
Theorem nothing_outlives_an_unusable_store (env : Env) (channel : bool) (w : World)
    (ops : list Op) (initial : JsVal) :
  hasIndexedDB (idb w) = false \/ rejects (idb w) = true ->
  let w' := fst (run key isValid isEqual env w ops) in
  let r := run key isValid isEqual (mkEnv true channel) (freshWorld initial (idb w'))
               [OHydrate; OResume 0; OResume 0] in
  idb w' = idb w /\ value (store (fst r)) = initial.
Proof.
  intros H. cbn zeta. rewrite (run_idb_unusable env ops w H). split; [reflexivity |].
  destruct (hydration_run key isValid isEqual channel initial (idb w)) as (Hv & _).
  rewrite Hv.
  assert (Hget : idbGet (idb w) key = JUndefined).
  { unfold idbGet, getOrCreateIdbStore. destruct (hasIndexedDB (idb w)); [| reflexivity].
    destruct H as [H | H]; [discriminate |]. rewrite H. reflexivity. }
  rewrite Hget. cbn [nullish]. destruct (isValid initial); reflexivity.
Qed.

(** X24: Clearing.  Where [null] is valid, as it always is for the hook's
    [isValid], [setValue(null)] on a record whose value is not [null] leaves
    the record at [null] and the key reading as [undefined] in the durable
    store, and the message it posts says [removed: true].  A record of the
    same key in another context that receives this message moves to its own
    repair target, unless its value equals it already: it follows the
    sender to [null] only if its repair target is [null]. *)
Theorem clearing_resets_other_contexts (env : Env) (w receiver : World) (addr : nat) :
  isValid JNull = true ->
  isEqual (value (store w)) JNull = false ->
  let r := setValue key isValid isEqual w JNull in
  let delivered := JObj addr [("key", JStr key); ("value", JNull); ("removed", JBool true)] in
  let rt := repairTo (store receiver) in
  value (store (fst r)) = JNull /\
  idbGet (idb (fst r)) key = JUndefined /\
  pending (fst r) = pending w ++ [TBroadcast JNull] /\
  message key JNull = JObj 0 [("key", JStr key); ("value", JNull); ("removed", JBool true)] /\
  handler key isValid isEqual receiver delivered =
    (if isEqual (value (store receiver)) rt then (receiver, [])
     else (setStore receiver (setVal (store receiver) rt),
           EvAssign rt :: map EvCall (listeners (store receiver)))).
Proof.
  intros Hnull Hchg. cbn zeta.
  assert (Hsafe : repair isValid (store w) JNull = JNull).
  { unfold repair. rewrite Hnull. reflexivity. }
  rewrite (setValue_changes key isValid isEqual w JNull) by (rewrite Hsafe; exact Hchg).
  rewrite Hsafe. cbn [fst store idb pending value setVal].
  repeat split; try reflexivity.
  - unfold idbGet, idbSet, getOrCreateIdbStore.
    destruct (hasIndexedDB (idb w)) eqn:Hh; [| rewrite ?Hh; reflexivity].
    destruct (rejects (idb w)) eqn:Hr; [rewrite ?Hh, ?Hr; reflexivity |].
    cbn [strictEq hasIndexedDB rejects cells]. rewrite lookup_delete_eq. reflexivity.
  - unfold handler.
    set (delivered := JObj addr _).
    assert (Hk : getProp delivered "key" = JStr key) by reflexivity.
    assert (Hr : getProp delivered "removed" = JBool true) by reflexivity.
    rewrite Hk, Hr. cbn [truthy delivered strictEq negb orb].
    rewrite String.eqb_refl. cbn [negb].
    assert (Hrt : repair isValid (store receiver) (repairTo (store receiver))
                  = repairTo (store receiver)).
    { unfold repair. destruct (isValid (repairTo (store receiver))); reflexivity. }
    rewrite Hrt. destruct (isEqual (value (store receiver)) _); reflexivity.
Qed.

(** X25: The [setValue] the hook returns, for a consumer whose schema is the one
    the record validates with: it is the record's [setValue] behind one more
    test, of the new value against the value of the consumer's last render.
    Validating twice changes nothing. *)
Theorem hook_setValue_is_guarded_setValue (schema : JsVal -> bool) (snapshot : JsVal)
    (w : World) (next : JsVal) :
  (forall v, Hook.isValid schema v = isValid v) ->
  UseLocalDb.setValue key schema isValid isEqual snapshot w next =
    (if isEqual snapshot next then (w, []) else setValue key isValid isEqual w next).
Proof.
  intros Hsame. unfold UseLocalDb.setValue. destruct (isEqual snapshot next); [reflexivity |].
  cbn zeta. rewrite Hsame. fold (repair isValid (store w) next).
  unfold setValue. cbn zeta. rewrite repair_idem. reflexivity.
Qed.

(** X26: With consumers of different schemas on one record, the value a
    consumer's [setValue] installs is the repair target or the consumer's
    value, accepted by the consumer's schema and by the record's. *)
Theorem hook_setValue_installs_doubly_valid (schema : JsVal -> bool) (snapshot : JsVal)
    (w : World) (next v : JsVal) :
  In v (assigns (snd (UseLocalDb.setValue key schema isValid isEqual snapshot w next))) ->
  v = repairTo (store w) \/
  (v = next /\ Hook.isValid schema next = true /\ isValid next = true).
Proof.
  unfold UseLocalDb.setValue. destruct (isEqual snapshot next); [intros [] |].
  cbn zeta. unfold setValue, persist, notify, repair. cbn zeta.
  destruct (Hook.isValid schema next) eqn:Hh.
  - destruct (isValid next) eqn:Hn; destruct (isEqual _ _); cbn [snd app assigns];
      rewrite ?assigns_calls; cbn [In]; intros H; try tauto;
      destruct H as [<- | []]; tauto.
  - destruct (isValid (repairTo (store w))); destruct (isEqual _ _); cbn [snd app assigns];
      rewrite ?assigns_calls; cbn [In]; intros H; try tauto;
      destruct H as [<- | []]; tauto.
Qed.

End StoreMore.

(** ** Instances, continued *)

Lemma run_touches_own_key_only_witness :
  let d := mkIdb true false {[ "draft" := JStr "hello" ]} in
  let w := freshWorld (fontSize 1 16) d in
  idbGet (idb (fst (run "settings" settingsValid settingsEqual browser w
                      [OHydrate; OSetValue (fontSize 2 20); OSetValue JNull]))) "draft"
    = idbGet (idb w) "draft".
Proof.
  cbn zeta.
  apply (run_touches_own_key_only "settings" settingsValid settingsEqual browser). discriminate.
Defined.

Lemma unsubscribed_listener_is_never_called_witness :
  let ops := [OSetValue (fontSize 2 20); OSubscribe 3; OSetValue JNull] in
  existsb (subscribes 7) ops = false /\
  ~ In 7 (calls (snd (run "settings" settingsValid settingsEqual browser
                        (fst (step "settings" settingsValid settingsEqual browser readyWorld
                                (OUnsubscribe 7))) ops))).
Proof.
  cbn zeta. split; [reflexivity |].
  apply (unsubscribed_listener_is_never_called "settings" settingsValid settingsEqual browser
           readyWorld). reflexivity.
Defined.

Lemma listeners_are_called_once_witness :
  let ops := [OSubscribe 7; OSubscribe 3; OSubscribe 7] in
  List.NoDup (listeners (store readyWorld)) /\
  List.NoDup (calls (snd (step "settings" settingsValid settingsEqual browser
                            (fst (run "settings" settingsValid settingsEqual browser
                                    readyWorld ops))
                            (OSetValue (fontSize 2 20))))).
Proof.
  cbn zeta.
  assert (H : List.NoDup (listeners (store readyWorld))).
  { cbn. constructor; [intros [] | constructor]. }
  split; [exact H |].
  apply (listeners_are_called_once "settings" settingsValid settingsEqual browser readyWorld
           [OSubscribe 7; OSubscribe 3; OSubscribe 7] (OSetValue (fontSize 2 20)) H).
Defined.

Lemma posted_messages_name_the_key_witness :
  let ops := [OSetValue JNull; OResume 0] in
  let m := message "settings" JNull in
  In m (posts (snd (run "settings" settingsValid settingsEqual browser readyWorld ops))) /\
  getProp m "removed" = JBool (strictEq (getProp m "value") JNull).
Proof.
  cbn zeta.
  assert (H : In (message "settings" JNull)
                (posts (snd (run "settings" settingsValid settingsEqual browser readyWorld
                               [OSetValue JNull; OResume 0])))).
  { vm_compute. left. reflexivity. }
  split; [exact H |].
  apply (posted_messages_name_the_key "settings" settingsValid settingsEqual browser readyWorld
           [OSetValue JNull; OResume 0] (message "settings" JNull) H).
Defined.


Lemma settingsValid_content (a b : JsVal) :
  content a = content b -> settingsValid a = settingsValid b.
Proof.
  unfold settingsValid, Hook.isValid, settingsSchema.
  destruct a as [| | x | [| x] | x | r fa | r xs], b as [| | y | [| y] | y | r' fb | r' ys];
    cbn [content strictEq]; intros H; try discriminate; try reflexivity.
  injection H as H. unfold getProp.
  revert fb H. induction fa as [| [k v] fa IH]; intros [| [k' v'] fb] H;
    try discriminate; [reflexivity |].
  injection H as -> Hv H. cbn [field].
  destruct (String.eqb k' "fontSize").
  - cbn [default from_option].
    destruct v as [| | x | [| x] | x | r1 f1 | r1 x1], v' as [| | y | [| y] | y | r2 f2 | r2 x2];
      cbn [content] in Hv; try discriminate; try reflexivity.
    injection Hv as ->. reflexivity.
  - apply IH, H.
Qed.

Lemma setValue_survives_reload_witness :
  let w1 := fst (setValue "settings" settingsValid settingsEqual readyWorld (fontSize 2 20)) in
  let w2 := fst (run "settings" settingsValid settingsEqual browser w1
                   [OResume 0; OHydrate; OSubscribe 3]) in
  let reloaded := fst (hydrate "settings" browser (freshWorld (fontSize 1 16) (idb w2))) in
  content (fontSize 8 20) = content (idbGet (idb w2) "settings") /\
  content (value (store (fst (hydrateLoaded "settings" settingsValid settingsEqual reloaded
                                (fontSize 8 20)))))
    = content (nullish (repair settingsValid (store readyWorld) (fontSize 2 20))
                 (repairTo (store readyWorld))).
Proof.
  cbn zeta. split; [vm_compute; reflexivity |].
  exact (proj2 (setValue_survives_reload "settings" settingsValid settingsEqual browser
                  readyWorld
                  (fst (hydrate "settings" browser
                          (freshWorld (fontSize 1 16)
                             (idb (fst (run "settings" settingsValid settingsEqual browser
                                          (fst (setValue "settings" settingsValid settingsEqual
                                                  readyWorld (fontSize 2 20)))
                                          [OResume 0; OHydrate; OSubscribe 3]))))))
                  (fontSize 2 20) [OResume 0; OHydrate; OSubscribe 3] (fontSize 8 20)
                  settingsValid_content eq_refl eq_refl eq_refl eq_refl eq_refl eq_refl eq_refl
                  eq_refl)).
Defined.

(** With a hydration read in flight the set value can be lost: the store
    held the invalid [{fontSize: 999}], [setValue({fontSize: 20})] ran before
    the read delivered, and the write-back of the repair target came after
    the write of the value set. *)
Example setValue_during_hydration_is_lost :
  let d := mkIdb true false {[ "settings" := fontSize 5 999 ]} in
  let r := run "settings" settingsValid settingsEqual browser (freshWorld (fontSize 1 16) d)
               [OHydrate; OSetValue (fontSize 2 20); OResume 0] in
  persists (snd r) = [fontSize 2 20; fontSize 1 16] /\
  idbGet (idb (fst r)) "settings" = fontSize 1 16.
Proof.
  vm_compute. split; reflexivity.
Qed.

(** An invalid repair target is persisted like any other. *)
Example invalid_repair_target_is_persisted :
  let w := mkWorld (mkStore (fontSize 1 16) (fontSize 4 999) true []) emptyIdb [] true in
  let r := run "settings" settingsValid settingsEqual browser w
               [OSetValue (fontSize 2 20); OSetValue (JStr "large")] in
  settingsValid (fontSize 4 999) = false /\
  persists (snd r) = [fontSize 2 20; fontSize 4 999].
Proof.
  vm_compute. split; reflexivity.
Qed.

Lemma nothing_outlives_an_unusable_store_witness :
  let w := freshWorld (fontSize 1 16) (mkIdb false false ∅) in
  let w' := fst (run "settings" settingsValid settingsEqual browser w
                   [OHydrate; OResume 0; OSetValue (fontSize 2 20)]) in
  value (store w') = fontSize 2 20 /\
  value (store (fst (run "settings" settingsValid settingsEqual (mkEnv true true)
                       (freshWorld (fontSize 1 16) (idb w'))
                       [OHydrate; OResume 0; OResume 0]))) = fontSize 1 16.
Proof.
  cbn zeta. split; [vm_compute; reflexivity |].
  exact (proj2 (nothing_outlives_an_unusable_store "settings" settingsValid settingsEqual
                  browser true (freshWorld (fontSize 1 16) (mkIdb false false ∅))
                  [OHydrate; OResume 0; OSetValue (fontSize 2 20)] (fontSize 1 16)
                  (or_introl eq_refl))).
Defined.

Lemma clearing_resets_other_contexts_witness :
  settingsValid JNull = true /\
  settingsEqual (value (store readyWorld)) JNull = false /\
  value (store (fst (setValue "settings" settingsValid settingsEqual readyWorld JNull))) = JNull.
Proof.
  split; [reflexivity |]. split; [reflexivity |].
  apply (clearing_resets_other_contexts "settings" settingsValid settingsEqual browser
           readyWorld readyWorld 0); reflexivity.
Defined.

Lemma hook_setValue_is_guarded_setValue_witness :
  UseLocalDb.setValue "settings" settingsSchema settingsValid settingsEqual
    (fontSize 1 16) readyWorld (fontSize 2 20)
  = (if settingsEqual (fontSize 1 16) (fontSize 2 20) then (readyWorld, [])
     else setValue "settings" settingsValid settingsEqual readyWorld (fontSize 2 20)).
Proof.
  apply (hook_setValue_is_guarded_setValue "settings" settingsValid settingsEqual
           settingsSchema (fontSize 1 16) readyWorld (fontSize 2 20)).
  intros v. reflexivity.
Defined.

Lemma hook_setValue_installs_doubly_valid_witness :
  let r := UseLocalDb.setValue "settings" anySchema settingsValid settingsEqual
             (fontSize 1 16) readyWorld (fontSize 2 20) in
  In (fontSize 2 20) (assigns (snd r)) /\
  (fontSize 2 20 = repairTo (store readyWorld) \/
   (fontSize 2 20 = fontSize 2 20 /\ Hook.isValid anySchema (fontSize 2 20) = true /\
    settingsValid (fontSize 2 20) = true)).
Proof.
  cbn zeta.
  assert (H : In (fontSize 2 20)
                (assigns (snd (UseLocalDb.setValue "settings" anySchema settingsValid
                                 settingsEqual (fontSize 1 16) readyWorld (fontSize 2 20))))).
  { vm_compute. left. reflexivity. }
  split; [exact H |].
  apply (hook_setValue_installs_doubly_valid "settings" settingsValid settingsEqual anySchema
           (fontSize 1 16) readyWorld (fontSize 2 20) (fontSize 2 20) H).
Defined.
